(** * The Sass plugin of cobalt-ui: a shallow embedding and its properties

    The development follows [packages/plugin-sass/src/index.ts]: the plugin
    factory [sass], its [config] and [build] steps, the nine per-type
    transformers and the dispatch [defaultTransformer].

    Conventions of the embedding.
    - JavaScript strings are [string]s, read as texts of ASCII characters:
      [toLowerCase] and the class [\s] are modelled on that range.
    - An object used as a dictionary (the mode mapping, a typography value)
      is an association list of its own properties in the object's own key
      order, the order in which [Object.keys] and [Object.entries] enumerate
      it. The objects of a token are plain objects: [obj[key]] finds an own
      property first and then, along the prototype chain, the members every
      object inherits from [Object.prototype].
    - A thrown [Error] is the result [Throw msg]; the rejected promise of
      the asynchronous [build] is the same.
    - The closure variable [config] holds a reference into a store of
      configuration objects. *)

From Stdlib Require Import String Ascii List Bool Arith NArith Lia.
From Stdlib Require Import Sorting.Sorted Sorting.Permutation.
From Stdlib Require Import Numbers.DecimalString.
Import ListNotations.
Open Scope string_scope.
Open Scope bool_scope.

Set Implicit Arguments.

(** ** Thrown errors *)

Inductive Result (A : Type) : Type :=
| Ok (a : A)
| Throw (msg : string).

Arguments Ok {A} a.
Arguments Throw {A} msg.

Definition bind {A B : Type} (c : Result A) (k : A -> Result B) : Result B :=
  match c with
  | Ok a => k a
  | Throw msg => Throw msg
  end.

Notation "x <- c ;; k" := (bind c (fun x => k))
  (at level 61, c at next level, right associativity).

(** [for (const x of xs) body], where [body] updates an accumulator and may
    throw: the first throw ends the loop. *)
Fixpoint for_of {A S : Type} (xs : list A) (body : S -> A -> Result S) (s : S)
  : Result S :=
  match xs with
  | [] => Ok s
  | x :: rest => s' <- body s x ;; for_of rest body s'
  end.

(** ** Strings of the JavaScript runtime *)

(** The double quote, line feed and the characters the regular expressions
    of the plugin look at. *)
Definition dq : string := String "034"%char EmptyString.
Definition LF : ascii := "010"%char.
Definition nl : string := String LF EmptyString.

(** [arr.join(sep)] on an array of strings. *)
Definition join (sep : string) (arr : list string) : string :=
  String.concat sep arr.

(** [arr.push(x)] *)
Definition push {A : Type} (arr : list A) (x : A) : list A := arr ++ [x].

(** Truthiness of a string: every string but the empty one. *)
Definition truthy_string (s : string) : bool := negb (s =? EmptyString).

(** Truthiness of a value that is [undefined] or a string. *)
Definition truthy (o : option string) : bool :=
  match o with Some s => truthy_string s | None => false end.

(** Truthiness of an optional boolean flag ([options?.indentedSyntax]). *)
Definition flag (o : option bool) : bool :=
  match o with Some b => b | None => false end.

(** [a || b] where [a] is [undefined], [false] or a string and [b] is an
    expression that may throw; [b] is evaluated only when [a] is falsy. *)
Definition or_else (a : option string) (b : Result string) : Result string :=
  match a with
  | Some s => if truthy_string s then Ok s else b
  | None => b
  end.

(** [a || b] where [a] is [undefined] or a string and [b] is a string. *)
Definition or_string (a : option string) (b : string) : string :=
  match a with
  | Some s => if truthy_string s then s else b
  | None => b
  end.

Definition is_upper (c : ascii) : bool :=
  let n := nat_of_ascii c in ((65 <=? n) && (n <=? 90))%nat.

(** [\s] on the ASCII range: TAB, LF, VT, FF, CR and the space. *)
Definition is_space (c : ascii) : bool :=
  let n := nat_of_ascii c in (((9 <=? n) && (n <=? 13)) || (n =? 32))%nat.

(** A line terminator on the ASCII range, where [$] matches under the [m]
    flag: LF or CR. *)
Definition is_line_terminator (c : ascii) : bool :=
  let n := nat_of_ascii c in ((n =? 10) || (n =? 13))%nat.

Definition lower (c : ascii) : ascii :=
  if is_upper c then ascii_of_nat (nat_of_ascii c + 32) else c.

(** [s.toLowerCase()] on ASCII. *)
Fixpoint toLowerCase (s : string) : string :=
  match s with
  | EmptyString => EmptyString
  | String c r => String (lower c) (toLowerCase r)
  end.

(** [s.trim()]: leading and trailing white space removed. *)
Fixpoint trimStart (s : string) : string :=
  match s with
  | String c r => if is_space c then trimStart r else s
  | EmptyString => EmptyString
  end.

Fixpoint trimEnd (s : string) : string :=
  match s with
  | String c r =>
      let r' := trimEnd r in
      if is_space c && (r' =? EmptyString) then EmptyString else String c r'
  | EmptyString => EmptyString
  end.

Definition trim (s : string) : string := trimEnd (trimStart s).

(** [$] under the [m] flag holds at the end of the input and before a line
    terminator. *)
Definition at_line_end (s : string) : bool :=
  match s with
  | EmptyString => true
  | String c _ => is_line_terminator c
  end.

(** [s.replace(TRAILING_WS_RE, '')] with [TRAILING_WS_RE = /\s+$/gm].

    The scan goes left to right. At a white-space character the greedy
    [\s+] takes the longest run of white space after which [$] holds; the
    run is dropped and the scan resumes behind it. [scan s] returns the
    replaced text of [s] and, when [\s+$] matches at the start of [s], the
    replaced text of what follows the longest match. *)
Fixpoint scan_trailing_ws (s : string) : string * option string :=
  match s with
  | EmptyString => (EmptyString, None)
  | String c r =>
      let (out_r, longer) := scan_trailing_ws r in
      let matched :=
        if is_space c then
          match longer with
          | Some rest => Some rest
          | None => if at_line_end r then Some out_r else None
          end
        else None in
      match matched with
      | Some rest => (rest, matched)
      | None => (String c out_r, None)
      end
  end.

Definition replace_trailing_ws (s : string) : string := fst (scan_trailing_ws s).

(** [k.replace(CAMELCASE_RE, '$1-$2')] with [CAMELCASE_RE = /([^A-Z])([A-Z])/g]:
    the scan goes left to right; where a character outside [A-Z] is followed
    by one inside, both are consumed and written back with a hyphen between
    them, and the scan resumes behind the pair. *)
Fixpoint replace_camelcase (k : string) : string :=
  match k with
  | String a (String b r as tl) =>
      if negb (is_upper a) && is_upper b
      then String a (String "-" (String b (replace_camelcase r)))
      else String a (replace_camelcase tl)
  | _ => k
  end.

(** [filename.replace(/(\.(sass|scss))?$/, '')]: the first position from the
    left at which the pattern matches is the first one whose remainder is
    [".sass"], [".scss"] or empty; the remainder is dropped there. *)
Fixpoint replace_extension (s : string) : string :=
  if (s =? ".sass") || (s =? ".scss") then EmptyString
  else match s with
       | EmptyString => EmptyString
       | String c r => String c (replace_extension r)
       end.

(** [arr.sort(compare)]: a stable sort (ECMAScript 2019) by a comparator
    that answers [Lt], [Eq] or [Gt] for a negative, zero or positive
    number. For a consistent comparator every stable sort returns the same
    array; the insertion sort below is one. *)
Section Sort.
Variable A : Type.
Variable compare : A -> A -> comparison.

Fixpoint insert (x : A) (l : list A) : list A :=
  match l with
  | [] => [x]
  | y :: l' =>
      match compare x y with
      | Gt => y :: insert x l'
      | _ => x :: l
      end
  end.

Fixpoint sort (l : list A) : list A :=
  match l with
  | [] => []
  | x :: l' => insert x (sort l')
  end.

(** [a] may stand before [b]: the comparator does not answer [Gt]. *)
Definition before (a b : A) : Prop := compare a b <> Gt.

End Sort.

(** The own property [key] of a dictionary, if it has one. *)
Fixpoint lookup {V : Type} (key : string) (obj : list (string * V)) : option V :=
  match obj with
  | [] => None
  | (k, v) :: rest => if k =? key then Some v else lookup key rest
  end.

(** The names of the properties of [Object.prototype] (ECMA-262, 20.1.3 and
    B.2.2): eleven functions and the accessor [__proto__], which answers the
    prototype object itself. *)
Definition prototype_keys : list string :=
  ["constructor"; "__defineGetter__"; "__defineSetter__"; "hasOwnProperty";
   "__lookupGetter__"; "__lookupSetter__"; "isPrototypeOf";
   "propertyIsEnumerable"; "toString"; "valueOf"; "__proto__";
   "toLocaleString"].

Definition inherited (key : string) : bool :=
  existsb (String.eqb key) prototype_keys.

(** What [obj[key]] evaluates to when it is not [undefined]: the value of an
    own property, or the member of [Object.prototype] of that name. Such a
    member is a function or, for [__proto__], the prototype object: it is
    truthy, it is no array, and it has none of the properties the
    transformers read ([join], [map], [offsetX], [duration], ...). *)
Inductive Member (V : Type) : Type :=
| Own (v : V)
| Inherited (key : string).

Arguments Own {V} v.
Arguments Inherited {V} key.

(** [obj[key]] on a plain object. *)
Definition get {V : Type} (key : string) (obj : list (string * V))
  : option (Member V) :=
  match lookup key obj with
  | Some v => Some (Own v)
  | None => if inherited key then Some (Inherited key) else None
  end.

(** [Object.keys(obj)] *)
Definition keys {V : Type} (obj : list (string * V)) : list string :=
  map fst obj.

(** ** What the plugin imports

    The JavaScript runtime supplies the printing and the arithmetic of
    numbers (IEEE doubles) and the collation behind [localeCompare]; the
    packages [@cobalt-ui/utils] ([Indenter]) and [./util.js] ([encode],
    [formatFontNames]) are not part of the verified file. All of them are
    functions of their arguments; the last may throw on a value that is no
    array. *)
Class Externals : Type := {
  (** a JavaScript number *)
  Number : Type;
  (** [String(n)], also the text of [n] inside a template literal *)
  numberToString : Number -> string;
  (** [n * 100] *)
  times100 : Number -> Number;
  (** [a.localeCompare(b)] *)
  localeCompare : string -> string -> comparison;
  (** [i.indent(str, level)] of the [Indenter] created by the plugin *)
  indent : string -> nat -> string;
  (** [encode(cssURL, cwd)] *)
  encode : string -> string -> string;
  (** [formatFontNames(fontNames)] *)
  formatFontNames : list string -> string;
  (** [String(Object.prototype[key])], also the text of that member inside a
      template literal: the source text the runtime shows for a built-in
      function *)
  inheritedToString : string -> string;
  (** [formatFontNames(Object.prototype[key])]: the function of [./util.js]
      on a value that is no array of names *)
  formatFontNamesInherited : string -> Result string
}.

(** ** Tokens *)

(** The cases of [switch (token.$type)] in [defaultTransformer], the
    type [build] treats apart, and every other type. *)
Inductive Kind : Type :=
| KColor | KDimension | KDuration | KFont | KCubicBezier | KLink
| KShadow | KGradient | KTransition | KTypography | KOther.

Definition kind_of (type : string) : Kind :=
  if type =? "color" then KColor
  else if type =? "dimension" then KDimension
  else if type =? "duration" then KDuration
  else if type =? "font" then KFont
  else if type =? "cubicBezier" then KCubicBezier
  else if type =? "link" then KLink
  else if type =? "shadow" then KShadow
  else if type =? "gradient" then KGradient
  else if type =? "transition" then KTransition
  else if type =? "typography" then KTypography
  else KOther.

(** The [$type]s [defaultTransformer] has a case for. *)
Definition handled_types : list string :=
  ["color"; "dimension"; "duration"; "font"; "cubicBezier"; "link";
   "shadow"; "gradient"; "transition"].

Section Tokens.
Context {externals : Externals}.

(** [ParsedShadowToken['$value']] *)
Record Shadow : Type := {
  offsetX : string;
  offsetY : string;
  blur : string;
  spread : string;
  shadowColor : string
}.

Record GradientStop : Type := {
  color : string;
  position : Number
}.

(** [ParsedTransitionToken['$value']] *)
Record Transition : Type := {
  duration : string;
  delay : string;
  timingFunction : option (list Number)
}.

(** A property of a typography value: a string, a number, or an array of
    font names. *)
Inductive TypographyProperty : Type :=
| PString (s : string)
| PNumber (n : Number)
| PArray (names : list string).

(** The value of a token whose type the plugin has no case for; the plugin
    only ever tests such a value for truthiness. *)
Inductive Unknown : Type :=
| UnknownValue (is_truthy : bool).

(** The shape of [$value], and of every mode value, by [$type]. *)
Definition Value (k : Kind) : Type :=
  match k with
  | KColor | KDimension | KDuration | KLink => string
  | KFont => list string
  | KCubicBezier => list Number
  | KShadow => Shadow
  | KGradient => list GradientStop
  | KTransition => Transition
  | KTypography => list (string * TypographyProperty)
  | KOther => Unknown
  end.

(** Truthiness of a value: a string is truthy unless empty, arrays and
    objects are truthy. *)
Definition truthy_value (k : Kind) : Value k -> bool :=
  match k return Value k -> bool with
  | KColor | KDimension | KDuration | KLink => truthy_string
  | KOther => fun v => match v with UnknownValue b => b end
  | _ => fun _ => true
  end.

(** [$extensions] with its optional [mode] mapping. *)
Record Extensions (V : Type) : Type := {
  mode : option (list (string * V))
}.

(** [ParsedToken]: the union of the parsed token types, discriminated by
    [$type]. The fields [_group] and [_original], which the plugin does not
    read, are left out. *)
Record ParsedToken : Type := {
  id : string;
  type_ : string;
  value : Value (kind_of type_);
  extensions : option (Extensions (Value (kind_of type_)))
}.

(** [ParsedTypographyToken]: a token narrowed by [$type === 'typography']. *)
Record ParsedTypographyToken : Type := {
  typography_id : string;
  typography_value : list (string * TypographyProperty);
  typography_extensions : option (Extensions (list (string * TypographyProperty)))
}.

Definition as_typography (token : ParsedToken) : option ParsedTypographyToken :=
  match kind_of (type_ token) as k
        return Value k -> option (Extensions (Value k)) -> option ParsedTypographyToken
  with
  | KTypography => fun v e =>
      Some {| typography_id := id token;
              typography_value := v;
              typography_extensions := e |}
  | _ => fun _ _ => None
  end (value token) (extensions token).

(** [token.$extensions?.mode] *)
Definition modes (token : ParsedToken)
  : option (list (string * Value (kind_of (type_ token)))) :=
  match extensions token with
  | Some e => mode e
  | None => None
  end.

(** [(token.$extensions && token.$extensions.mode) || {}] *)
Definition modes_or_empty (token : ParsedToken)
  : list (string * Value (kind_of (type_ token))) :=
  match modes token with
  | Some m => m
  | None => []
  end.

(** Truthiness of what [obj[key]] has found. *)
Definition truthy_member (k : Kind) (member : Member (Value k)) : bool :=
  match member with
  | Own v => truthy_value k v
  | Inherited _ => true
  end.

(** ** The transformers

    A transformer is called on [token.$value] or on
    [token.$extensions.mode[mode]]; the latter is a value of the token's
    type or a member of [Object.prototype]. *)

(** [String(value)], and [value] inside a template literal. *)
Definition toText (value : Member string) : string :=
  match value with
  | Own s => s
  | Inherited key => inheritedToString key
  end.

Definition transformColor (value : Member string) : string := toText value.
Definition transformDimension (value : Member string) : string := toText value.
Definition transformDuration (value : Member string) : string := toText value.

Definition transformFont (value : Member (list string)) : Result string :=
  match value with
  | Own names => Ok (formatFontNames names)
  | Inherited key => formatFontNamesInherited key
  end.

(** [value.join] is [undefined] on a member of [Object.prototype]: calling
    it throws a [TypeError]. *)
Definition transformCubicBezier (value : Member (list Number)) : Result string :=
  match value with
  | Own numbers =>
      Ok ("cubic-bezier(" ++ join ", " (map numberToString numbers) ++ ")")
  | Inherited _ => Throw "value.join is not a function"
  end.

Definition transformLink (value : Member string) : string :=
  "url('" ++ toText value ++ "')".

(** A property the value does not have is [undefined], which [join] writes
    as the empty string. *)
Definition transformShadow (value : Member Shadow) : string :=
  join " "
    match value with
    | Own shadow =>
        [offsetX shadow; offsetY shadow; blur shadow; spread shadow;
         shadowColor shadow]
    | Inherited _ =>
        [EmptyString; EmptyString; EmptyString; EmptyString; EmptyString]
    end.

(** [value.map] is [undefined] on a member of [Object.prototype]. *)
Definition transformGradient (value : Member (list GradientStop)) : Result string :=
  match value with
  | Own stops =>
      Ok (join ", "
            (map (fun g => color g ++ " " ++ numberToString (times100 (position g)) ++ "%")
                 stops))
  | Inherited _ => Throw "value.map is not a function"
  end.

(** The [filter] drops every [undefined]: the timing function when the
    value has none, and all three entries on a member of
    [Object.prototype]. *)
Definition transformTransition (value : Member Transition) : string :=
  join " "
    match value with
    | Own transition =>
        let timing :=
          match timingFunction transition with
          | Some f => ["cubic-bezier(" ++ join "," (map numberToString f) ++ ")"]
          | None => []
          end in
        [duration transition; delay transition] ++ timing
    | Inherited _ => []
    end.

(** The message of the error thrown for a mode the token does not have. *)
Definition missing_mode (token : ParsedToken) (m : string) : string :=
  "Token " ++ id token ++ " missing " ++ dq ++ "$extensions.mode." ++ m ++ dq.

(** The message of the error thrown by the [default:] case. *)
Definition no_transformer (type : string) : string :=
  "No transformer defined for $type: " ++ type ++ " tokens".

(** The value [defaultTransformer] formats. The first statement of the
    function throws when [mode] is truthy and the token has no mode mapping
    or [token.$extensions.mode[mode]] is falsy; behind it every case of the
    switch takes [mode ? token.$extensions.mode[mode] : token.$value]. *)
Definition selected_value (token : ParsedToken) (mode_name : option string)
  : Result (Member (Value (kind_of (type_ token)))) :=
  match mode_name with
  | Some m =>
      if truthy_string m then
        match modes token with
        | None => Throw (missing_mode token m)
        | Some obj =>
            match get m obj with
            | Some member =>
                if truthy_member _ member then Ok member
                else Throw (missing_mode token m)
            | None => Throw (missing_mode token m)
            end
        end
      else Ok (Own (value token))
  | None => Ok (Own (value token))
  end.

(** [switch (token.$type)] *)
Definition transform_by_type (type : string)
  : Member (Value (kind_of type)) -> Result string :=
  match kind_of type as k return Member (Value k) -> Result string with
  | KColor => fun v => Ok (transformColor v)
  | KDimension => fun v => Ok (transformDimension v)
  | KDuration => fun v => Ok (transformDuration v)
  | KFont => fun v => transformFont v
  | KCubicBezier => fun v => transformCubicBezier v
  | KLink => fun v => Ok (transformLink v)
  | KShadow => fun v => Ok (transformShadow v)
  | KGradient => fun v => transformGradient v
  | KTransition => fun v => Ok (transformTransition v)
  | KTypography | KOther => fun _ => Throw (no_transformer type)
  end.

Definition defaultTransformer (token : ParsedToken) (mode_name : option string)
  : Result string :=
  v <- selected_value token mode_name ;;
  transform_by_type (type_ token) v.

End Tokens.

(** ** Configuration, options and results *)

(** Modelled from the spec: the type [ResolvedConfig] is declared in
    [@cobalt-ui/core]; it holds the output directory, the token source file
    list and the ordered plugin list. *)
Record ResolvedConfig : Type := {
  outDir : string;
  sources : list string;
  plugins : list string
}.

(** The configuration objects of the process, by reference, and the closure
    variable [config] of one plugin instance ([None] until the [config] step
    has run). *)
Record World : Type := {
  store : list ResolvedConfig;
  closure_config : option nat
}.

(** [{filename, contents}] *)
Record BuildResult : Type := {
  result_filename : string;
  contents : string
}.

Section Plugin.
Context {externals : Externals}.

(** The options of the plugin. A [transform] is a function that returns: a
    string, or a falsy value for the cases it leaves to the plugin. *)
Record Options : Type := {
  opt_filename : option string;
  indentedSyntax : option bool;
  embedFiles : option bool;
  transform : option (ParsedToken -> option string -> option string)
}.

Record Metadata : Type := {
  name : option string
}.

(** The argument of [build]. *)
Record BuildInput : Type := {
  tokens : list ParsedToken;
  metadata : Metadata
}.

Definition VAR_TOKENS : string := "__token-values".
Definition VAR_TYPOGRAPHY : string := "__token-typography-mixins".
Definition VAR_ERROR : string := "__cobalt-error".
Definition DEPENDENCIES : list string := ["sass:list"; "sass:map"].

(** [options?.field] *)
Definition chain {A : Type} (options : option Options)
  (field : Options -> option A) : option A :=
  match options with
  | Some o => field o
  | None => None
  end.

(** *** The constants computed by [sass(options)] *)

Definition ext (options : option Options) : string :=
  if flag (chain options indentedSyntax) then ".sass" else ".scss".

Definition filename (options : option Options) : string :=
  let stem :=
    or_string (option_map replace_extension (chain options opt_filename))
              "index" in
  stem ++ ext options.

Definition semi (options : option Options) : string :=
  if flag (chain options indentedSyntax) then EmptyString else ";".

Definition cbOpen (options : option Options) : string :=
  if flag (chain options indentedSyntax) then EmptyString else " {".

Definition cbClose (options : option Options) : string :=
  if flag (chain options indentedSyntax) then EmptyString else "} ".

Definition TOKEN_FN (options : option Options) : string :=
  let semi := semi options in
  let cbOpen := cbOpen options in
  let cbClose := cbClose options in
  replace_trailing_ws (trim (join nl [
    "@function token($tokenName, $modeName: default)" ++ cbOpen;
    "  @if map.has-key($" ++ VAR_TOKENS ++ ", $tokenName) == false" ++ cbOpen;
    "    @error " ++ dq ++ "No token named \" ++ dq ++ "#{$tokenName}\" ++ dq ++ dq ++ semi;
    "  " ++ cbClose;
    "  $_token: map.get($" ++ VAR_TOKENS ++ ", $tokenName)" ++ semi;
    "  @if map.has-key($_token, " ++ dq ++ "__cobalt-error" ++ dq ++ ")" ++ cbOpen;
    "    @error map.get($_token, " ++ dq ++ "__cobalt-error" ++ dq ++ ")" ++ semi;
    "  " ++ cbClose;
    "  @if map.has-key($_token, $modeName) {";
    "    @return map.get($_token, $modeName)" ++ semi;
    "  " ++ cbClose ++ "@else" ++ cbOpen;
    "    @return map.get($_token, default)" ++ semi;
    "  " ++ cbClose;
    cbClose])).

Definition LIST_MODES_FN (options : option Options) : string :=
  let semi := semi options in
  let cbOpen := cbOpen options in
  let cbClose := cbClose options in
  replace_trailing_ws (trim (join nl [
    "@function listModes($tokenName)" ++ cbOpen;
    "  @if map.has-key($" ++ VAR_TOKENS ++ ", $tokenName) == false" ++ cbOpen;
    "    @error " ++ dq ++ "No token named \" ++ dq ++ "#{$tokenName}\" ++ dq ++ dq ++ semi;
    "  " ++ cbClose;
    "  $_modes: ();";
    "  @each $k in map.get($" ++ VAR_TOKENS ++ ", $tokenName)" ++ cbOpen;
    "    @if $k != " ++ dq ++ "default" ++ dq ++ cbOpen;
    "      $_modes: list.append($_modes, $k);";
    "    " ++ cbClose;
    "  " ++ cbClose;
    "  @return $_modes;";
    cbClose])).

Definition TYPOGRAPHY_MIXIN (options : option Options) : string :=
  let semi := semi options in
  let cbOpen := cbOpen options in
  let cbClose := cbClose options in
  replace_trailing_ws (trim (join nl [
    "@mixin typography($tokenName, $modeName: default)" ++ cbOpen;
    "  @if map.has-key($" ++ VAR_TYPOGRAPHY ++ ", $tokenName) == false" ++ cbOpen;
    "    @error " ++ dq ++ "No typography mixin named \" ++ dq ++ "#{$tokenName}\" ++ dq ++ dq ++ semi;
    "  " ++ cbClose;
    "  $_mixin: map.get($" ++ VAR_TYPOGRAPHY ++ ", $tokenName)" ++ semi;
    "  $_properties: map.get($_mixin, default)" ++ semi;
    "  @if map.has-key($_mixin, $modeName)" ++ cbOpen;
    "    $_properties: map.get($_mixin, $modeName)" ++ semi;
    "  " ++ cbClose;
    "  @each $_property, $_value in $_properties" ++ cbOpen;
    "    #{$_property}: #{$_value}" ++ semi;
    "  " ++ cbClose;
    cbClose])).

(** *** The [config] step: [config(c) { config = c; }] *)
Definition config (c : nat) (w : World) : World :=
  {| store := store w; closure_config := Some c |}.

(** [config.outDir]: reading a property of [undefined] throws a
    [TypeError] with this message. *)
Definition config_outDir (w : World) : Result string :=
  match closure_config w with
  | Some c =>
      match nth_error (store w) c with
      | Some object => Ok (outDir object)
      | None => Throw "Cannot read properties of undefined (reading 'outDir')"
      end
  | None => Throw "Cannot read properties of undefined (reading 'outDir')"
  end.

(** *** The [build] step *)

(** [typeof options?.transform === 'function' && options.transform(token, mode)];
    [false] and a falsy answer of the function are both falsy. *)
Definition override (options : option Options) (token : ParsedToken)
  (mode_name : option string) : option string :=
  match chain options transform with
  | Some f => f token mode_name
  | None => None
  end.

(** The local variables [output] and [typographyTokens] of [build]. *)
Record Locals : Type := {
  output : list string;
  typographyTokens : list ParsedTypographyToken
}.

(** The body of [for (const token of tokens)]. *)
Definition token_body (options : option Options) (w : World)
  (locals : Locals) (token : ParsedToken) : Result Locals :=
  match as_typography token with
  | Some typography =>
      let typographyTokens := push (typographyTokens locals) typography in
      let output := push (output locals) (indent (dq ++ id token ++ dq ++ ": (") 1) in
      let output := push output
        (indent (dq ++ VAR_ERROR ++ dq ++ ": " ++ dq
                 ++ "This is a typography mixin. Use `@include typography(\"
                 ++ dq ++ id token ++ "\" ++ dq ++ ")` instead." ++ dq ++ ",") 2) in
      let output := push output (indent ")," 1) in
      Ok {| output := output; typographyTokens := typographyTokens |}
  | None =>
      let output := push (output locals) (indent (dq ++ id token ++ dq ++ ": (") 1) in
      value <- or_else (override options token None) (defaultTransformer token None) ;;
      value <- (if (type_ token =? "link") && flag (chain options embedFiles)
                then (dir <- config_outDir w ;; Ok (encode value dir))
                else Ok value) ;;
      let output := push output (indent ("default: (" ++ value ++ "),") 2) in
      output <- for_of (keys (modes_or_empty token))
        (fun output modeName =>
           modeValue <- or_else (override options token (Some modeName))
                                (defaultTransformer token (Some modeName)) ;;
           modeValue <- (if (type_ token =? "link") && flag (chain options embedFiles)
                         then (dir <- config_outDir w ;; Ok (encode modeValue dir))
                         else Ok modeValue) ;;
           Ok (push output (indent (dq ++ modeName ++ dq ++ ": (" ++ modeValue ++ "),") 2)))
        output ;;
      let output := push output (indent ")," 1) in
      Ok {| output := output; typographyTokens := typographyTokens locals |}
  end.

(** [${Array.isArray(value) ? formatFontNames(value) : value}] *)
Definition property_text (value : TypographyProperty) : string :=
  match value with
  | PArray names => formatFontNames names
  | PString s => s
  | PNumber n => numberToString n
  end.

(** The body of [for (const token of typographyTokens)]. *)
Definition typography_body (output : list string) (token : ParsedTypographyToken)
  : list string :=
  let output := push output (indent (dq ++ typography_id token ++ dq ++ ": (") 1) in
  let output := push output (indent "default: (" 2) in
  let defaultProperties :=
    sort (fun a b => localeCompare (fst a) (fst b)) (typography_value token) in
  let output :=
    fold_left (fun output kv =>
      let property := toLowerCase (replace_camelcase (fst kv)) in
      push output (indent (dq ++ property ++ dq ++ ": (" ++ property_text (snd kv) ++ "),") 3))
      defaultProperties output in
  let output := push output (indent ")," 2) in
  let output :=
    fold_left (fun output entry =>
      let output := push output (indent (dq ++ fst entry ++ dq ++ ": (") 2) in
      let modeProperties :=
        sort (fun a b => localeCompare (fst a) (fst b)) (snd entry) in
      let output :=
        fold_left (fun output kv =>
          let property := toLowerCase (replace_camelcase (fst kv)) in
          push output (indent (dq ++ property ++ dq ++ ": (" ++ property_text (snd kv) ++ "),") 3))
          modeProperties output in
      push output (indent ")," 2))
      (match match typography_extensions token with
             | Some e => mode e
             | None => None
             end with
       | Some m => m
       | None => []
       end)
      output in
  push output (indent ")," 1).

(** The array [output] of [build({tokens, metadata})] when the function
    reaches its [return]. *)
Definition build_output (options : option Options) (w : World)
  (input : BuildInput) : Result (list string) :=
  let semi := semi options in
  let output : list string := [] in
  let typographyTokens : list ParsedTypographyToken := [] in
  let output := push output "////" in
  let output := push output
    ("/// " ++ or_string (name (metadata input)) "Design Tokens") in
  let output := push output "/// Auto-generated from tokens.json." in
  let output := push output "/// DO NOT EDIT!" in
  let output := push output "////" in
  let output := push output EmptyString in
  let output :=
    app output (map (fun name => "@use " ++ dq ++ name ++ dq ++ semi) DEPENDENCIES) in
  let output := push output EmptyString in
  let output := push output (indent ("$" ++ VAR_TOKENS ++ ": (") 0) in
  locals <- for_of (tokens input) (token_body options w)
              {| output := output; typographyTokens := typographyTokens |} ;;
  let '(Build_Locals output typographyTokens) := locals in
  let output := push output (")" ++ semi) in
  let output := push output EmptyString in
  let output := push output ("$" ++ VAR_TYPOGRAPHY ++ ": (") in
  let output := fold_left typography_body typographyTokens output in
  let output := push output (")" ++ semi) in
  let output := push output EmptyString in
  let output := push output (TOKEN_FN options) in
  let output := push output EmptyString in
  let output := push output (LIST_MODES_FN options) in
  let output := push output EmptyString in
  let output := push output (TYPOGRAPHY_MIXIN options) in
  let output := push output EmptyString in
  Ok output.

(** The value the promise returned by [build] resolves to:
    [[{filename, contents: output.join('\n')}]]. *)
Definition build_result (options : option Options) (w : World)
  (input : BuildInput) : Result (list BuildResult) :=
  output <- build_output options w input ;;
  Ok [ {| result_filename := filename options; contents := join nl output |} ].

(** [build] as a step of the plugin instance: the world it leaves behind and
    the result. The body assigns to no closure variable and to no property
    of the configuration. *)
Definition build (options : option Options) (w : World) (input : BuildInput)
  : World * Result (list BuildResult) :=
  (w, build_result options w input).





End Plugin.

(** ** The text of the output, block by block

    The definitions of this part describe the lines [build] writes; the
    theorems relate them to [build_output]. *)

Fixpoint mapM {A B : Type} (f : A -> Result B) (l : list A) : Result (list B) :=
  match l with
  | [] => Ok []
  | x :: rest => y <- f x ;; ys <- mapM f rest ;; Ok (y :: ys)
  end.

(** A hyphen between every character outside [A-Z] and a following
    character inside [A-Z]. *)
Fixpoint hyphenate (s : string) : string :=
  match s with
  | EmptyString => EmptyString
  | String a r =>
      match r with
      | String b _ =>
          if negb (is_upper a) && is_upper b
          then String a (String "-" (hyphenate r))
          else String a (hyphenate r)
      | EmptyString => s
      end
  end.

Section Text.
Context {externals : Externals}.

(** The typography tokens of a token sequence, in order. *)
Definition typography_of (l : list ParsedToken) : list ParsedTypographyToken :=
  flat_map (fun token =>
              match as_typography token with
              | Some t => [t]
              | None => []
              end) l.

(** The names of the modes of a token: the keys of its [$extensions.mode],
    in the order in which the mapping holds them; none when the token has
    no [$extensions] or no mode mapping. *)
Definition mode_names (token : ParsedToken) : list string :=
  match extensions token with
  | Some e =>
      match mode e with
      | Some mapping => map fst mapping
      | None => []
      end
  | None => []
  end.

(** The modes a token has a value entry for: the default, then the names
    of its modes. *)
Definition slots (token : ParsedToken) : list (option string) :=
  None :: map Some (mode_names token).

Definition id_line (token_id : string) : string :=
  indent (dq ++ token_id ++ dq ++ ": (") 1.

Definition error_line (token_id : string) : string :=
  indent (dq ++ "__cobalt-error" ++ dq ++ ": " ++ dq
          ++ "This is a typography mixin. Use `@include typography(\"
          ++ dq ++ token_id ++ "\" ++ dq ++ ")` instead." ++ dq ++ ",") 2.

Definition close_line (level : nat) : string := indent ")," level.

Definition value_line (slot : option string) (v : string) : string :=
  match slot with
  | None => indent ("default: (" ++ v ++ "),") 2
  | Some m => indent (dq ++ m ++ dq ++ ": (" ++ v ++ "),") 2
  end.

(** Whether the values of [token] go through [encode]. *)
Definition embeds (options : option Options) (token : ParsedToken) : bool :=
  (type_ token =? "link") && flag (chain options embedFiles).

(** The value written for a token and a slot. *)
Definition emitted_value (options : option Options) (w : World)
  (token : ParsedToken) (slot : option string) : Result string :=
  v <- (if truthy (override options token slot)
        then Ok (or_string (override options token slot) EmptyString)
        else defaultTransformer token slot) ;;
  if embeds options token
  then (dir <- config_outDir w ;; Ok (encode v dir))
  else Ok v.

(** The lines of a token in the map of token values. *)
Definition entry_lines (options : option Options) (w : World)
  (token : ParsedToken) : Result (list string) :=
  match as_typography token with
  | Some _ => Ok [id_line (id token); error_line (id token); close_line 1]
  | None =>
      values <- mapM (emitted_value options w token) (slots token) ;;
      Ok (id_line (id token)
          :: map (fun sv => value_line (fst sv) (snd sv)) (combine (slots token) values)
          ++ [close_line 1])
  end.

Definition by_key (a b : string * TypographyProperty) : comparison :=
  localeCompare (fst a) (fst b).

Definition property_line (kv : string * TypographyProperty) : string :=
  indent (dq ++ toLowerCase (hyphenate (fst kv)) ++ dq ++ ": ("
          ++ property_text (snd kv) ++ "),") 3.

(** The property lines of one typography value. *)
Definition property_block (properties : list (string * TypographyProperty))
  : list string :=
  map property_line (sort by_key properties).

Definition typography_modes (token : ParsedTypographyToken)
  : list (string * list (string * TypographyProperty)) :=
  match typography_extensions token with
  | Some e => match mode e with Some m => m | None => [] end
  | None => []
  end.

(** The lines of a typography token in the map of typography mixins. *)
Definition typography_lines (token : ParsedTypographyToken) : list string :=
  [id_line (typography_id token); indent "default: (" 2]
  ++ property_block (typography_value token)
  ++ [close_line 2]
  ++ flat_map (fun entry =>
                 indent (dq ++ fst entry ++ dq ++ ": (") 2
                 :: app (property_block (snd entry)) [close_line 2])
              (typography_modes token)
  ++ [close_line 1].

Definition preamble (options : option Options) (input : BuildInput) : list string :=
  ["////";
   "/// " ++ or_string (name (metadata input)) "Design Tokens";
   "/// Auto-generated from tokens.json.";
   "/// DO NOT EDIT!";
   "////";
   EmptyString;
   "@use " ++ dq ++ "sass:list" ++ dq ++ semi options;
   "@use " ++ dq ++ "sass:map" ++ dq ++ semi options;
   EmptyString;
   indent "$__token-values: (" 0].

Definition interlude (options : option Options) : list string :=
  [")" ++ semi options; EmptyString; "$__token-typography-mixins: ("].

Definition utilities (options : option Options) : list string :=
  [")" ++ semi options; EmptyString;
   TOKEN_FN options; EmptyString;
   LIST_MODES_FN options; EmptyString;
   TYPOGRAPHY_MIXIN options; EmptyString].

(** Two option objects that [build] cannot tell apart on a token sequence:
    the same flags and file name, and overrides that answer alike on every
    token of the sequence that is not a typography token. *)
Definition same_options (l : list ParsedToken) (o1 o2 : option Options) : Prop :=
  chain o1 opt_filename = chain o2 opt_filename
  /\ flag (chain o1 indentedSyntax) = flag (chain o2 indentedSyntax)
  /\ flag (chain o1 embedFiles) = flag (chain o2 embedFiles)
  /\ forall token slot, In token l -> as_typography token = None ->
       override o1 token slot = override o2 token slot.



End Text.

(** ** Vocabulary for the properties of the texts and of the options *)

(** No white-space character of [s] stands at the end of a line: none is
    the last character and none is followed by a line terminator. *)
Fixpoint no_trailing_space (s : string) : Prop :=
  match s with
  | EmptyString => True
  | String c r => (is_space c = true -> at_line_end r = false)
                  /\ no_trailing_space r
  end.

(** The characters of [s] that are not white space, in order. *)
Fixpoint visible (s : string) : string :=
  match s with
  | EmptyString => EmptyString
  | String c r => if is_space c then visible r else String c (visible r)
  end.

(** No character of [s] is in [A-Z]. *)
Fixpoint no_upper (s : string) : Prop :=
  match s with
  | EmptyString => True
  | String c r => is_upper c = false /\ no_upper r
  end.

(** Every character of [s] is an ASCII character: a code unit below 128,
    the range on which [toLowerCase] lowers the letters [A-Z] and nothing
    else. *)
Definition is_ascii (c : ascii) : bool := (nat_of_ascii c <? 128)%nat.

Fixpoint ascii_only (s : string) : Prop :=
  match s with
  | EmptyString => True
  | String c r => is_ascii c = true /\ ascii_only r
  end.

(** [s] without its hyphens. *)
Fixpoint without_hyphens (s : string) : string :=
  match s with
  | EmptyString => EmptyString
  | String c r =>
      if Ascii.eqb c "-" then without_hyphens r else String c (without_hyphens r)
  end.

(** The name the plugin writes for a property key:
    [k.replace(CAMELCASE_RE, '$1-$2').toLowerCase()]. *)
Definition property_name_of (k : string) : string :=
  toLowerCase (replace_camelcase k).

(** [s] ends with one of the two extensions the plugin strips. *)
Definition has_extension (s : string) : Prop :=
  exists stem, s = stem ++ ".sass" \/ s = stem ++ ".scss".

Section Variants.
Context {externals : Externals}.

(** The options without their [transform]. *)
Definition without_transform (options : option Options) : option Options :=
  option_map
    (fun o => {| opt_filename := opt_filename o;
                 indentedSyntax := indentedSyntax o;
                 embedFiles := embedFiles o;
                 transform := None |})
    options.

(** The first two lines of every output: the banner with the name of the
    document. *)
Definition banner (metadata : Metadata) : list string :=
  ["////"; "/// " ++ or_string (name metadata) "Design Tokens"].

End Variants.

(** ** A sample of the imports and sample inputs

    One instance of [Externals] and a few tokens, on which the model runs
    to concrete text. The collation compares letters without regard to
    case and breaks ties by code units; [sample_encode] stands for the
    inlining of a file below the output directory. *)

Definition sample_key (s : string) : string :=
  toLowerCase s ++ String "000"%char s.

Definition sample_collate (a b : string) : comparison :=
  String.compare (sample_key a) (sample_key b).

Definition sample_indent (str : string) (level : nat) : string :=
  String.concat EmptyString (repeat "  " level) ++ str.

Definition sample_encode (cssURL cwd : string) : string :=
  "url('data:" ++ cwd ++ "|" ++ cssURL ++ "')".

(** The text of a member of [Object.prototype], as V8 prints it. *)
Definition sample_inherited (key : string) : string :=
  if key =? "__proto__" then "[object Object]"
  else "function " ++ (if key =? "constructor" then "Object" else key)
       ++ "() { [native code] }".

Definition sample : Externals := {|
  Number := nat;
  numberToString := fun n => NilEmpty.string_of_uint (Nat.to_uint n);
  times100 := fun n => 100 * n;
  localeCompare := sample_collate;
  indent := sample_indent;
  encode := sample_encode;
  formatFontNames := String.concat ", ";
  inheritedToString := sample_inherited;
  formatFontNamesInherited := fun _ => Throw "fontNames.map is not a function"
|}.

Section Samples.
#[local] Existing Instance sample.

Definition make_token (id type : string) (value : Value (kind_of type))
  (modes : option (list (string * Value (kind_of type)))) : ParsedToken :=
  {| id := id; type_ := type; value := value;
     extensions := option_map (fun m => {| mode := Some m |}) modes |}.

Definition red : ParsedToken :=
  make_token "color.red" "color" "#f00" (Some [("dark", "#a00"); ("light", "#f88")]).


(** A colour whose mode [dark] holds the empty string. *)
Definition faded : ParsedToken :=
  make_token "color.faded" "color" "#ccc" (Some [("dark", EmptyString)]).

(** A token of a type the plugin has no transformer for. *)
Definition ratio : ParsedToken :=
  make_token "scale.ratio" "number" (UnknownValue true) None.

Definition alert : ParsedToken :=
  make_token "icon.alert" "link" "alert.svg" None.

Definition body : ParsedToken :=
  make_token "type.body" "typography"
    [("fontSize", PString "16px"); ("fontfamily", PArray ["Inter"; "sans-serif"])]
    (Some [("large", [("fontSize", PString "20px")])]).

(** [body], narrowed to a typography token. *)
Definition body_mixin : ParsedTypographyToken :=
  {| typography_id := "type.body";
     typography_value :=
       [("fontSize", PString "16px"); ("fontfamily", PArray ["Inter"; "sans-serif"])];
     typography_extensions :=
       Some {| mode := Some [("large", [("fontSize", PString "20px")])] |} |}.

Definition no_options : option Options := None.

Definition embedding : option Options :=
  Some {| opt_filename := None; indentedSyntax := None;
          embedFiles := Some true; transform := None |}.

Definition shouting : option Options :=
  Some {| opt_filename := None; indentedSyntax := None; embedFiles := None;
          transform := Some (fun _ _ => Some "X") |}.

(** An override that answers ["X"] for every token but a typography
    token. *)
Definition selective : option Options :=
  Some {| opt_filename := None; indentedSyntax := None; embedFiles := None;
          transform :=
            Some (fun token _ =>
                    if type_ token =? "typography" then None else Some "X") |}.

Definition indented : option Options :=
  Some {| opt_filename := Some "tokens.scss"; indentedSyntax := Some true;
          embedFiles := None; transform := None |}.

Definition input_of (l : list ParsedToken) : BuildInput :=
  {| tokens := l; metadata := {| name := None |} |}.

Definition project : ResolvedConfig :=
  {| outDir := "file:///project/tokens/";
     sources := ["file:///project/tokens.json"];
     plugins := ["@cobalt-ui/plugin-sass"] |}.

(** The plugin before its [config] step, and after it. *)
Definition fresh : World := {| store := [project]; closure_config := None |}.
Definition configured : World := config 0 fresh.

(** Another process: a configuration with the same output directory, other
    sources and plugins, at another reference; and options that differ from
    [embedding] by an override that never answers. *)
Definition elsewhere : World :=
  config 1
    {| store := [ {| outDir := "file:///tmp/"; sources := []; plugins := [] |};
                  {| outDir := "file:///project/tokens/";
                     sources := ["file:///project/a.json"; "file:///project/b.json"];
                     plugins := ["@cobalt-ui/plugin-css"; "@cobalt-ui/plugin-sass"] |} ];
       closure_config := None |}.


(** Options with [embedFiles] and an override that answers ["brand"] for
    the default value of a colour, the empty string for a link, and nothing
    otherwise. *)
Definition rebranding : option Options :=
  Some {| opt_filename := None; indentedSyntax := None;
          embedFiles := Some true;
          transform :=
            Some (fun token mode_name =>
                    if type_ token =? "color" then
                      match mode_name with
                      | None => Some "brand"
                      | Some _ => None
                      end
                    else if type_ token =? "link" then Some EmptyString
                    else None) |}.

(** Options with [embedFiles] and an override that answers for the mode
    [print] alone, a mode none of the sample tokens has. *)
Definition printing : option Options :=
  Some {| opt_filename := None; indentedSyntax := Some false;
          embedFiles := Some true;
          transform :=
            Some (fun _ mode_name =>
                    match mode_name with
                    | Some m => if m =? "print" then Some "X" else None
                    | None => None
                    end) |}.


End Samples.

(** ** General facts about the error monad and the loops *)

Open Scope list_scope.

Lemma bind_inv {A B : Type} (c : Result A) (k : A -> Result B) (b : B) :
  bind c k = Ok b -> exists a, c = Ok a /\ k a = Ok b.
Proof.
  destruct c as [a | msg]; simpl; intros H.
  - exists a. split; [reflexivity | exact H].
  - discriminate H.
Qed.

Lemma bind_assoc {A B C : Type} (c : Result A) (k : A -> Result B)
  (h : B -> Result C) :
  bind (bind c k) h = bind c (fun a => bind (k a) h).
Proof. destruct c; reflexivity. Qed.

Lemma bind_ext {A B : Type} (c : Result A) (k k' : A -> Result B) :
  (forall a, k a = k' a) -> bind c k = bind c k'.
Proof. intros H. destruct c; simpl; [apply H | reflexivity]. Qed.

Lemma mapM_Forall2 {A B : Type} (f : A -> Result B) (l : list A) (r : list B) :
  mapM f l = Ok r -> Forall2 (fun x y => f x = Ok y) l r.
Proof.
  revert r. induction l as [| x l IH]; simpl; intros r H.
  - injection H as <-. constructor.
  - destruct (f x) as [y | msg] eqn:Hx; simpl in H; [| discriminate].
    destruct (mapM f l) as [ys | msg]; simpl in H; [| discriminate].
    injection H as <-. constructor; [exact Hx | apply IH; reflexivity].
Qed.

Lemma mapM_total {A B : Type} (f : A -> Result B) (l : list A) :
  (forall x, In x l -> exists y, f x = Ok y) -> exists r, mapM f l = Ok r.
Proof.
  induction l as [| x l IH]; simpl; intros H.
  - exists []. reflexivity.
  - destruct (H x (or_introl eq_refl)) as [y Hy].
    destruct IH as [r Hr]; [intros z Hz; apply H; right; exact Hz |].
    exists (y :: r). rewrite Hy, Hr. reflexivity.
Qed.

Lemma mapM_Throw {A B : Type} (f : A -> Result B) (l : list A) (x : A)
  (msg : string) :
  In x l -> f x = Throw msg -> exists msg', mapM f l = Throw msg'.
Proof.
  induction l as [| y l IH]; simpl; intros Hin Hx; [contradiction |].
  destruct (f y) as [b | m] eqn:Hy; simpl.
  - destruct Hin as [-> | Hin]; [congruence |].
    destruct (IH Hin Hx) as [msg' ->]. exists msg'. reflexivity.
  - exists m. reflexivity.
Qed.

Lemma mapM_ext_in {A B : Type} (f g : A -> Result B) (l : list A) :
  (forall x, In x l -> f x = g x) -> mapM f l = mapM g l.
Proof.
  induction l as [| x l IH]; simpl; intros H; [reflexivity |].
  rewrite (H x (or_introl eq_refl)), IH; [reflexivity |].
  intros y Hy. apply H. right. exact Hy.
Qed.

Lemma fold_left_push {A B : Type} (f : A -> B) (l : list A) (out : list B) :
  fold_left (fun output x => push output (f x)) l out = out ++ map f l.
Proof.
  revert out. induction l as [| x l IH]; simpl; intros out.
  - rewrite app_nil_r. reflexivity.
  - rewrite IH. unfold push. rewrite <- app_assoc. reflexivity.
Qed.

Lemma fold_left_append {A B : Type} (body : list B -> A -> list B)
  (lines : A -> list B) (l : list A) (out : list B) :
  (forall o x, body o x = o ++ lines x) ->
  fold_left body l out = out ++ flat_map lines l.
Proof.
  intros H. revert out. induction l as [| x l IH]; simpl; intros out.
  - rewrite app_nil_r. reflexivity.
  - rewrite IH, H, <- app_assoc. reflexivity.
Qed.

(** ** The regular expressions *)

Lemma hyphenate_upper (b : ascii) (r : string) :
  is_upper b = true -> hyphenate (String b r) = String b (hyphenate r).
Proof.
  intros Hb. simpl. destruct r as [| c r']; [reflexivity |].
  rewrite Hb. reflexivity.
Qed.

(** The scan of the regular expression, which skips each matched pair, and
    the insertion of a hyphen at every boundary agree: two boundaries never
    overlap. *)
Lemma replace_camelcase_hyphenate (k : string) :
  replace_camelcase k = hyphenate k.
Proof.
  assert (H : forall n s, String.length s <= n -> replace_camelcase s = hyphenate s).
  { induction n as [| n IH]; intros s Hlen.
    - destruct s; [reflexivity | simpl in Hlen; lia].
    - destruct s as [| a [| b r]]; try reflexivity.
      simpl in Hlen.
      change (replace_camelcase (String a (String b r)))
        with (if negb (is_upper a) && is_upper b
              then String a (String "-" (String b (replace_camelcase r)))
              else String a (replace_camelcase (String b r))).
      change (hyphenate (String a (String b r)))
        with (if negb (is_upper a) && is_upper b
              then String a (String "-" (hyphenate (String b r)))
              else String a (hyphenate (String b r))).
      destruct (negb (is_upper a) && is_upper b) eqn:Hab.
      + apply andb_prop in Hab. destruct Hab as [_ Hb].
        rewrite hyphenate_upper by exact Hb. rewrite IH; [reflexivity | lia].
      + rewrite IH; [reflexivity | simpl; lia]. }
  apply (H (String.length k)). apply le_n.
Qed.

Lemma toLowerCase_length (s : string) :
  String.length (toLowerCase s) = String.length s.
Proof. induction s as [| c s IH]; simpl; [reflexivity | rewrite IH; reflexivity]. Qed.

Lemma replace_extension_long (c : ascii) (s : string) :
  5 <= String.length s ->
  replace_extension (String c s) = String c (replace_extension s).
Proof.
  intros Hlen.
  change (replace_extension (String c s))
    with (if (String c s =? ".sass") || (String c s =? ".scss") then EmptyString
          else String c (replace_extension s)).
  destruct (String.eqb_spec (String c s) ".sass") as [E | _].
  - apply (f_equal String.length) in E. simpl in E. lia.
  - destruct (String.eqb_spec (String c s) ".scss") as [E | _]; [| reflexivity].
    apply (f_equal String.length) in E. simpl in E. lia.
Qed.

Lemma append_length (a b : string) :
  String.length (a ++ b)%string = String.length a + String.length b.
Proof. induction a as [| c a IH]; simpl; [reflexivity | rewrite IH; reflexivity]. Qed.

(** A trailing [".sass"] or [".scss"] is what the replacement removes. *)
Lemma replace_extension_strips (stem suffix : string) :
  suffix = ".sass" \/ suffix = ".scss" ->
  replace_extension (stem ++ suffix)%string = stem.
Proof.
  intros Hs. induction stem as [| c stem IH].
  - destruct Hs as [-> | ->]; reflexivity.
  - change (String c stem ++ suffix)%string with (String c (stem ++ suffix)).
    rewrite replace_extension_long.
    + rewrite IH. reflexivity.
    + rewrite append_length. destruct Hs as [-> | ->]; simpl; lia.
Qed.

(** ** The loops of [build] *)

Section Loops.
Context {externals : Externals}.

Lemma or_else_override (a : option string) (b : Result string) :
  or_else a b = if truthy a then Ok (or_string a EmptyString) else b.
Proof.
  destruct a as [s |]; simpl; [| reflexivity].
  destruct (truthy_string s); reflexivity.
Qed.

(** The body of the loop over the mode names of a token. *)
Lemma mode_body (options : option Options) (w : World) (token : ParsedToken)
  (modeName : string) (out : list string) :
  (modeValue <- or_else (override options token (Some modeName))
                        (defaultTransformer token (Some modeName)) ;;
   modeValue <- (if (type_ token =? "link")%string && flag (chain options embedFiles)
                 then (dir <- config_outDir w ;; Ok (encode modeValue dir))
                 else Ok modeValue) ;;
   Ok (push out
         (indent (dq ++ modeName ++ dq ++ ": (" ++ modeValue ++ "),")%string 2)))
  = (v <- emitted_value options w token (Some modeName) ;;
     Ok (out ++ [value_line (Some modeName) v])).
Proof.
  unfold emitted_value, embeds. rewrite or_else_override, bind_assoc.
  reflexivity.
Qed.

(** The loop over the mode names of a token. *)
Lemma modes_loop (options : option Options) (w : World) (token : ParsedToken)
  (names : list string) (out : list string) :
  for_of names
    (fun output modeName =>
       modeValue <- or_else (override options token (Some modeName))
                            (defaultTransformer token (Some modeName)) ;;
       modeValue <- (if (type_ token =? "link")%string && flag (chain options embedFiles)
                     then (dir <- config_outDir w ;; Ok (encode modeValue dir))
                     else Ok modeValue) ;;
       Ok (push output
             (indent (dq ++ modeName ++ dq ++ ": (" ++ modeValue ++ "),")%string 2)))
    out
  = (values <- mapM (emitted_value options w token) (map Some names) ;;
     Ok (out ++ map (fun sv => value_line (fst sv) (snd sv))
                    (combine (map Some names) values))).
Proof.
  revert out. induction names as [| m names IH]; intros out.
  - simpl. rewrite app_nil_r. reflexivity.
  - cbn [for_of map mapM]. rewrite mode_body.
    rewrite !bind_assoc. apply bind_ext. intros v. simpl.
    rewrite IH. rewrite !bind_assoc. apply bind_ext. intros vs. simpl.
    rewrite <- app_assoc. reflexivity.
Qed.

(** The loop over the mode names goes through the keys of the mode mapping
    of the token, in the order of the mapping. *)
Lemma keys_modes_or_empty (token : ParsedToken) :
  keys (modes_or_empty token) = mode_names token.
Proof.
  unfold keys, modes_or_empty, modes, mode_names.
  destruct (extensions token) as [e |]; [| reflexivity].
  destruct (mode e); reflexivity.
Qed.

(** One turn of the loop over the tokens. *)
Lemma token_body_lines (options : option Options) (w : World)
  (locals : Locals) (token : ParsedToken) :
  token_body options w locals token
  = (lines <- entry_lines options w token ;;
     Ok {| output := output locals ++ lines;
           typographyTokens := typographyTokens locals ++ typography_of [token] |}).
Proof.
  unfold token_body, entry_lines, typography_of. simpl flat_map.
  rewrite keys_modes_or_empty.
  destruct (as_typography token) as [t |].
  - simpl. unfold push. rewrite <- !app_assoc. reflexivity.
  - unfold slots. cbn [mapM]. unfold emitted_value at 1, embeds.
    rewrite or_else_override, ?bind_assoc.
    apply bind_ext. intros v0. rewrite ?bind_assoc.
    apply bind_ext. intros v. rewrite modes_loop, ?bind_assoc. simpl.
    apply bind_ext. intros vs. simpl.
    unfold push. rewrite !app_nil_r, <- !app_assoc. reflexivity.
Qed.

(** The loop over the tokens. *)
Lemma tokens_loop (options : option Options) (w : World)
  (l : list ParsedToken) (locals : Locals) :
  for_of l (token_body options w) locals
  = (blocks <- mapM (entry_lines options w) l ;;
     Ok {| output := output locals ++ concat blocks;
           typographyTokens := typographyTokens locals ++ typography_of l |}).
Proof.
  revert locals. induction l as [| token l IH]; intros locals.
  - simpl. rewrite !app_nil_r. destruct locals; reflexivity.
  - cbn [for_of mapM]. rewrite token_body_lines.
    rewrite !bind_assoc. apply bind_ext. intros lines. simpl.
    rewrite IH. rewrite !bind_assoc. apply bind_ext. intros blocks. simpl.
    rewrite app_nil_r, <- !app_assoc. reflexivity.
Qed.

(** The loop over the sorted properties of a typography value. *)
Lemma properties_loop (properties : list (string * TypographyProperty))
  (out : list string) :
  fold_left (fun output kv =>
    let property := toLowerCase (replace_camelcase (fst kv)) in
    push output (indent (dq ++ property ++ dq ++ ": (" ++ property_text (snd kv) ++ "),")%string 3))
    properties out
  = out ++ map property_line properties.
Proof.
  cbv zeta. rewrite fold_left_push. f_equal. apply map_ext. intros kv.
  unfold property_line. rewrite replace_camelcase_hyphenate. reflexivity.
Qed.

(** One turn of the loop over the typography tokens. *)
Lemma typography_body_lines (out : list string) (token : ParsedTypographyToken) :
  typography_body out token = out ++ typography_lines token.
Proof.
  unfold typography_body. cbv zeta.
  rewrite (fold_left_append
             (fun output entry =>
                push
                  (fold_left
                     (fun output0 kv =>
                        push output0
                          (indent (dq ++ toLowerCase (replace_camelcase (fst kv)) ++ dq
                                   ++ ": (" ++ property_text (snd kv) ++ "),")%string 3))
                     (sort (fun a b => localeCompare (fst a) (fst b)) (snd entry))
                     (push output (indent (dq ++ fst entry ++ dq ++ ": (")%string 2)))
                  (indent ")," 2))
             (fun entry =>
                indent (dq ++ fst entry ++ dq ++ ": (")%string 2
                :: property_block (snd entry) ++ [close_line 2])).
  - pose proof (properties_loop (sort by_key (typography_value token))) as Hp.
    cbv zeta in Hp. unfold by_key in Hp at 1. rewrite Hp.
    unfold typography_lines, property_block, typography_modes, push, id_line, close_line.
    rewrite <- !app_assoc. simpl.
    destruct (typography_extensions token) as [e |]; reflexivity.
  - intros o entry.
    pose proof (properties_loop (sort by_key (snd entry))) as Hp.
    cbv zeta in Hp. unfold by_key in Hp at 1. rewrite Hp.
    unfold property_block, push, close_line. rewrite <- !app_assoc. reflexivity.
Qed.

(** What [build] has written when it returns, and the error it throws
    otherwise. *)
Lemma build_output_text (options : option Options) (w : World)
  (input : BuildInput) :
  build_output options w input
  = (blocks <- mapM (entry_lines options w) (tokens input) ;;
     Ok (preamble options input
         ++ concat blocks
         ++ interlude options
         ++ flat_map typography_lines (typography_of (tokens input))
         ++ utilities options)).
Proof.
  unfold build_output. rewrite tokens_loop. rewrite bind_assoc.
  apply bind_ext. intros blocks. simpl.
  rewrite (fold_left_append typography_body typography_lines)
    by apply typography_body_lines.
  unfold push, preamble, interlude, utilities.
  repeat (rewrite <- app_assoc; simpl). reflexivity.
Qed.

End Loops.

(** ** The dispatch [defaultTransformer] *)

Section Dispatch.
Context {externals : Externals}.




(** The [default:] case of the switch is the case of every type outside
    the nine. *)
Lemma transform_by_type_unhandled (type : string)
  (v : Member (Value (kind_of type))) :
  ~ In type handled_types -> transform_by_type type v = Throw (no_transformer type).
Proof.
  intros Hout. revert v. unfold transform_by_type, kind_of, handled_types in *.
  repeat match goal with
  | |- context [(type =? ?s)%string] =>
      destruct (String.eqb_spec type s) as [E | _];
      [try (exfalso; apply Hout; rewrite E; simpl; tauto) |]
  end; intros v; reflexivity.
Qed.

Lemma typography_unhandled (token : ParsedToken) (t : ParsedTypographyToken) :
  as_typography token = Some t -> ~ In (type_ token) handled_types.
Proof.
  unfold as_typography, kind_of, handled_types.
  generalize (value token) (extensions token).
  intros v e H Hin. revert v e H.
  simpl in Hin.
  repeat (destruct Hin as [<- | Hin]; [simpl; discriminate |]).
  contradiction.
Qed.




Lemma defaultTransformer_unhandled (token : ParsedToken) :
  ~ In (type_ token) handled_types ->
  forall mode_name, exists msg, defaultTransformer token mode_name = Throw msg.
Proof.
  intros Hout mode_name. unfold defaultTransformer.
  destruct (selected_value token mode_name) as [v | msg]; simpl.
  - exists (no_transformer (type_ token)).
    apply transform_by_type_unhandled. exact Hout.
  - exists msg. reflexivity.
Qed.


End Dispatch.

(** ** The output of [build] *)

Section Build.
Context {externals : Externals}.

Lemma Forall2_weaken {A B : Type} (P Q : A -> B -> Prop) (l : list A) (r : list B) :
  (forall x y, In x l -> P x y -> Q x y) -> Forall2 P l r -> Forall2 Q l r.
Proof.
  intros H F. induction F as [| x y l r Hxy F IH]; constructor.
  - apply H; [left; reflexivity | exact Hxy].
  - apply IH. intros a b Ha. apply H. right. exact Ha.
Qed.

(** The output of a build that returns, cut into its blocks. *)
Lemma build_output_blocks (options : option Options) (w : World)
  (input : BuildInput) (output : list string) :
  build_output options w input = Ok output ->
  exists blocks,
    output = preamble options input
             ++ concat blocks
             ++ interlude options
             ++ flat_map typography_lines (typography_of (tokens input))
             ++ utilities options
    /\ Forall2 (fun token block => entry_lines options w token = Ok block)
               (tokens input) blocks.
Proof.
  rewrite build_output_text. intros H.
  apply bind_inv in H. destruct H as [blocks [Hb H]].
  exists blocks. split.
  - injection H as <-. reflexivity.
  - apply mapM_Forall2. exact Hb.
Qed.

(** The value written for a slot: what the override answers when that is a
    non-empty string, what [defaultTransformer] returns otherwise, and the
    encoding of either when the token is a link and [embedFiles] is set. *)
Lemma emitted_value_Ok (options : option Options) (w : World)
  (token : ParsedToken) (slot : option string) (value : string) :
  emitted_value options w token slot = Ok value ->
  exists v,
    (if truthy (override options token slot)
     then override options token slot = Some v
     else defaultTransformer token slot = Ok v)
    /\ (if embeds options token
        then exists dir, config_outDir w = Ok dir /\ value = encode v dir
        else value = v).
Proof.
  unfold emitted_value. intros H.
  apply bind_inv in H. destruct H as [v [Hv H]]. exists v. split.
  - destruct (override options token slot) as [s |]; simpl in *.
    + destruct (truthy_string s); [congruence | exact Hv].
    + exact Hv.
  - destruct (embeds options token).
    + apply bind_inv in H. destruct H as [dir [Hd H]].
      exists dir. split; [exact Hd | congruence].
    + congruence.
Qed.

(** The block of a token that is not a typography token. *)
Lemma entry_lines_values (options : option Options) (w : World)
  (token : ParsedToken) (block : list string) :
  as_typography token = None ->
  entry_lines options w token = Ok block ->
  exists values,
    block = id_line (id token)
            :: map (fun sv => value_line (fst sv) (snd sv))
                   (combine (slots token) values)
            ++ [close_line 1]
    /\ Forall2 (fun slot value => emitted_value options w token slot = Ok value)
               (slots token) values.
Proof.
  unfold entry_lines. intros -> H.
  apply bind_inv in H. destruct H as [values [Hv H]].
  exists values. split; [congruence | apply mapM_Forall2; exact Hv].
Qed.

(** The block of a typography token. *)
Lemma entry_lines_typography (options : option Options) (w : World)
  (token : ParsedToken) (t : ParsedTypographyToken) :
  as_typography token = Some t ->
  entry_lines options w token
  = Ok [id_line (id token); error_line (id token); close_line 1].
Proof. unfold entry_lines. intros ->. reflexivity. Qed.

(** [build] cannot tell apart two option objects that are the same on its
    tokens, nor two worlds whose captured output directory is the same. *)
Lemma emitted_value_congruence (o1 o2 : option Options) (w1 w2 : World)
  (token : ParsedToken) (slot : option string) :
  override o1 token slot = override o2 token slot ->
  flag (chain o1 embedFiles) = flag (chain o2 embedFiles) ->
  (embeds o1 token = true -> config_outDir w1 = config_outDir w2) ->
  emitted_value o1 w1 token slot = emitted_value o2 w2 token slot.
Proof.
  unfold emitted_value, embeds. intros -> <- Hdir.
  apply bind_ext. intros v.
  destruct ((type_ token =? "link")%string && flag (chain o1 embedFiles));
    [rewrite Hdir by reflexivity |]; reflexivity.
Qed.

Lemma entry_lines_congruence (o1 o2 : option Options) (w1 w2 : World)
  (token : ParsedToken) :
  (as_typography token = None ->
   forall slot, override o1 token slot = override o2 token slot) ->
  flag (chain o1 embedFiles) = flag (chain o2 embedFiles) ->
  (embeds o1 token = true -> config_outDir w1 = config_outDir w2) ->
  entry_lines o1 w1 token = entry_lines o2 w2 token.
Proof.
  unfold entry_lines. intros Ho He Hdir.
  destruct (as_typography token) as [t |]; [reflexivity |].
  rewrite (mapM_ext_in (emitted_value o1 w1 token) (emitted_value o2 w2 token)).
  - reflexivity.
  - intros slot _. apply emitted_value_congruence; auto.
Qed.

Lemma semi_congruence (o1 o2 : option Options) :
  flag (chain o1 indentedSyntax) = flag (chain o2 indentedSyntax) ->
  semi o1 = semi o2 /\ cbOpen o1 = cbOpen o2 /\ cbClose o1 = cbClose o2
  /\ ext o1 = ext o2.
Proof. unfold semi, cbOpen, cbClose, ext. intros ->. auto. Qed.

Lemma build_output_congruence (o1 o2 : option Options) (w1 w2 : World)
  (input : BuildInput) :
  same_options (tokens input) o1 o2 ->
  (existsb (embeds o1) (tokens input) = true ->
   config_outDir w1 = config_outDir w2) ->
  build_output o1 w1 input = build_output o2 w2 input.
Proof.
  intros [Hf [Hi [He Ho]]] Hdir.
  destruct (semi_congruence o1 o2 Hi) as [Hsemi [Hopen [Hclose _]]].
  rewrite !build_output_text.
  rewrite (mapM_ext_in (entry_lines o1 w1) (entry_lines o2 w2)).
  - apply bind_ext. intros blocks.
    unfold preamble, interlude, utilities, TOKEN_FN, LIST_MODES_FN, TYPOGRAPHY_MIXIN.
    rewrite Hsemi, Hopen, Hclose. reflexivity.
  - intros token Hin. apply entry_lines_congruence.
    + intros Ht slot. apply Ho; assumption.
    + exact He.
    + intros Hemb. apply Hdir. apply existsb_exists. exists token. auto.
Qed.

Lemma build_result_congruence (o1 o2 : option Options) (w1 w2 : World)
  (input : BuildInput) :
  same_options (tokens input) o1 o2 ->
  (existsb (embeds o1) (tokens input) = true ->
   config_outDir w1 = config_outDir w2) ->
  build_result o1 w1 input = build_result o2 w2 input.
Proof.
  intros Hs Hdir. unfold build_result.
  rewrite (build_output_congruence w1 w2 input Hs Hdir).
  destruct Hs as [Hf [Hi _]].
  destruct (semi_congruence o1 o2 Hi) as [_ [_ [_ Hext]]].
  unfold filename. rewrite Hf, Hext. reflexivity.
Qed.

Lemma same_options_refl (l : list ParsedToken) (o : option Options) :
  same_options l o o.
Proof. unfold same_options. auto. Qed.

Lemma combine_map_Some (names : list string) (values : list string) :
  map (fun sv : option string * string => value_line (fst sv) (snd sv))
      (combine (map Some names) values)
  = map (fun mv : string * string => value_line (Some (fst mv)) (snd mv))
        (combine names values).
Proof.
  revert values. induction names as [| m names IH]; intros [| v values];
    simpl; try reflexivity.
  rewrite IH. reflexivity.
Qed.

(** C1, as amended. In the output of a build that returns, every token that
    is not a typography token has one value line per slot (the default,
    then each key of its mode mapping), and the value on that line is the
    answer of the caller's [transform] when one is given and answers a
    non-empty string, and otherwise the result of [defaultTransformer] for
    the same token and mode; when the token is a link and [embedFiles] is
    set, the line carries [encode] of that value and the captured output
    directory instead. A typography token has no value line: its block is
    the line of its id, the error entry and the closing line. Neither the
    [transform] nor [defaultTransformer] is consulted for it: the output is
    the same under every [transform] that answers alike on the other
    tokens, and the build has returned although [defaultTransformer] throws
    on the token for every mode. *)
Theorem build_writes_override_or_default (options : option Options) (w : World)
  (input : BuildInput) (output : list string) :
  build_output options w input = Ok output ->
  (exists blocks,
     output = preamble options input
              ++ concat blocks
              ++ interlude options
              ++ flat_map typography_lines (typography_of (tokens input))
              ++ utilities options
     /\ Forall2
          (fun token block =>
             match as_typography token with
             | Some _ =>
                 block = [id_line (id token); error_line (id token); close_line 1]
             | None =>
                 exists values,
                   block = id_line (id token)
                           :: map (fun sv => value_line (fst sv) (snd sv))
                                  (combine (slots token) values)
                           ++ [close_line 1]
                   /\ Forall2
                        (fun slot value =>
                           exists v,
                             (if truthy (override options token slot)
                              then override options token slot = Some v
                              else defaultTransformer token slot = Ok v)
                             /\ (if embeds options token
                                 then exists dir,
                                     config_outDir w = Ok dir /\ value = encode v dir
                                 else value = v))
                        (slots token) values
             end)
          (tokens input) blocks)
  /\ (forall options',
        same_options (tokens input) options options' ->
        build_output options' w input = Ok output)
  /\ (forall token t,
        In token (tokens input) -> as_typography token = Some t ->
        forall mode_name, exists msg,
          defaultTransformer token mode_name = Throw msg).
Proof.
  intros H. split; [| split].
  - destruct (build_output_blocks _ _ _ H) as [blocks [Hout Hb]].
    exists blocks. split; [exact Hout |].
    apply (Forall2_weaken _ (l := tokens input)) with (2 := Hb).
    intros token block _ Hblock.
    destruct (as_typography token) as [t |] eqn:Ht.
    + rewrite (entry_lines_typography _ _ _ Ht) in Hblock. congruence.
    + destruct (entry_lines_values _ _ _ Ht Hblock) as [values [Hlines Hv]].
      exists values. split; [exact Hlines |].
      apply (Forall2_weaken _ (l := slots token)) with (2 := Hv).
      intros slot value _. apply emitted_value_Ok.
  - intros options' Hs. rewrite <- H. symmetry.
    apply build_output_congruence; [exact Hs | reflexivity].
  - intros token t _ Ht. apply defaultTransformer_unhandled.
    apply (typography_unhandled token Ht).
Qed.

(** C3. In the output of a build that returns, the map of token values
    holds one block per token in the order of the input sequence; the block
    of a token opens with its id, then comes the line of its default value,
    then one line per key of the token's [$extensions.mode], under the name
    of that key and in the order in which the mapping holds its keys (no
    mode line when the token has no mode mapping). The map of
    typography mixins holds the typography tokens in the same order, each
    with its default block before its mode blocks, the latter in key
    order. *)
Theorem build_emission_order (options : option Options) (w : World)
  (input : BuildInput) (output : list string) :
  build_output options w input = Ok output ->
  exists blocks,
    output = preamble options input
             ++ concat blocks
             ++ interlude options
             ++ flat_map
                  (fun t =>
                     [id_line (typography_id t); indent "default: (" 2]
                     ++ property_block (typography_value t)
                     ++ [close_line 2]
                     ++ flat_map
                          (fun entry =>
                             indent (dq ++ fst entry ++ dq ++ ": (")%string 2
                             :: property_block (snd entry) ++ [close_line 2])
                          (typography_modes t)
                     ++ [close_line 1])
                  (typography_of (tokens input))
             ++ utilities options
    /\ Forall2
         (fun token block =>
            match as_typography token with
            | Some _ =>
                block = [id_line (id token); error_line (id token); close_line 1]
            | None =>
                exists default_value mode_values,
                  length mode_values = length (mode_names token)
                  /\ block = id_line (id token)
                             :: value_line None default_value
                             :: map (fun mv => value_line (Some (fst mv)) (snd mv))
                                    (combine (mode_names token) mode_values)
                             ++ [close_line 1]
            end)
         (tokens input) blocks.
Proof.
  intros H. destruct (build_output_blocks _ _ _ H) as [blocks [Hout Hb]].
  exists blocks. split; [exact Hout |].
  apply (Forall2_weaken _ (l := tokens input)) with (2 := Hb).
  intros token block _ Hblock.
  destruct (as_typography token) as [t |] eqn:Ht.
  - rewrite (entry_lines_typography _ _ _ Ht) in Hblock. congruence.
  - destruct (entry_lines_values _ _ _ Ht Hblock) as [values [Hlines Hv]].
    unfold slots in *. inversion Hv as [| slot v0 slots' vs _ Hvs]; subst.
    exists v0, vs. split.
    + apply Forall2_length in Hvs. rewrite length_map in Hvs.
      symmetry. exact Hvs.
    + simpl. rewrite combine_map_Some. reflexivity.
Qed.

(** Every value can be produced: the condition under which [build]
    returns. *)
Lemma emitted_value_total (options : option Options) (w : World)
  (token : ParsedToken) (slot : option string) :
  (truthy (override options token slot) = true
   \/ exists v, defaultTransformer token slot = Ok v) ->
  (embeds options token = true -> exists dir, config_outDir w = Ok dir) ->
  exists value, emitted_value options w token slot = Ok value.
Proof.
  unfold emitted_value. intros Hv Hd.
  assert (Hfirst : exists v,
             (if truthy (override options token slot)
              then Ok (or_string (override options token slot) EmptyString)
              else defaultTransformer token slot) = Ok v).
  { destruct (truthy (override options token slot)).
    - eexists. reflexivity.
    - destruct Hv as [Hv | Hv]; [discriminate | exact Hv]. }
  destruct Hfirst as [v ->]. simpl.
  destruct (embeds options token).
  - destruct (Hd eq_refl) as [dir ->]. simpl. eexists. reflexivity.
  - eexists. reflexivity.
Qed.

(** C10, as amended. On every input for which each value can be produced
    (for every token that is not a typography token and each of its slots,
    the override answers a non-empty string or [defaultTransformer] does not
    throw, and the configuration has been captured when the value of a link
    is embedded), [build] returns exactly one [BuildResult]: its filename
    is the one computed from the options, its contents the lines of
    [output] joined by line feeds. *)
Theorem build_returns_one_result (options : option Options) (w : World)
  (input : BuildInput) :
  (forall token slot,
     In token (tokens input) -> as_typography token = None ->
     In slot (slots token) ->
     (truthy (override options token slot) = true
      \/ exists v, defaultTransformer token slot = Ok v)
     /\ (embeds options token = true -> exists dir, config_outDir w = Ok dir)) ->
  exists output,
    build_output options w input = Ok output
    /\ build_result options w input
       = Ok [ {| result_filename := filename options;
                 contents := join nl output |} ].
Proof.
  intros Hall.
  assert (Hblocks : exists blocks,
             mapM (entry_lines options w) (tokens input) = Ok blocks).
  { apply mapM_total. intros token Hin. unfold entry_lines.
    destruct (as_typography token) as [t |] eqn:Ht; [eexists; reflexivity |].
    destruct (mapM_total (emitted_value options w token) (slots token))
      as [values Hv].
    - intros slot Hslot. destruct (Hall token slot Hin Ht Hslot) as [Hv Hd].
      apply emitted_value_total; assumption.
    - rewrite Hv. simpl. eexists. reflexivity. }
  destruct Hblocks as [blocks Hb].
  unfold build_result. rewrite build_output_text, Hb. simpl.
  eexists. split; reflexivity.
Qed.

(** A value that cannot be produced makes [build] throw. *)
Lemma build_rejects (options : option Options) (w : World) (input : BuildInput)
  (token : ParsedToken) (slot : option string) (msg : string) :
  In token (tokens input) -> as_typography token = None ->
  In slot (slots token) -> emitted_value options w token slot = Throw msg ->
  exists msg', build_result options w input = Throw msg'.
Proof.
  intros Hin Ht Hslot Hv.
  destruct (mapM_Throw (emitted_value options w token) (slots token) slot Hslot Hv)
    as [m1 H1].
  assert (He : entry_lines options w token = Throw m1).
  { unfold entry_lines. rewrite Ht, H1. reflexivity. }
  destruct (mapM_Throw (entry_lines options w) (tokens input) token Hin He)
    as [m2 H2].
  exists m2. unfold build_result. rewrite build_output_text, H2. reflexivity.
Qed.




(** C7. The [config] step changes no configuration object: it stores the
    reference it is given in the closure variable and leaves the store as
    it is. The [build] step leaves both the closure variable and the store
    as they are, and of the captured configuration it reads [outDir] alone:
    its result is the same in every world in which [config.outDir]
    evaluates alike. *)
Theorem config_is_read_only (options : option Options) (c : nat) (w : World)
  (input : BuildInput) :
  store (config c w) = store w
  /\ closure_config (config c w) = Some c
  /\ fst (build options w input) = w
  /\ (forall w', config_outDir w' = config_outDir w ->
        snd (build options w' input) = snd (build options w input)).
Proof.
  repeat split. intros w' Hdir. unfold build. simpl.
  apply build_result_congruence; [apply same_options_refl | intros _; exact Hdir].
Qed.

End Build.

(** ** The sort *)

Section SortFacts.
Variable A : Type.
Variable compare : A -> A -> comparison.

Local Abbreviation ordered := (before compare).

Lemma insert_permutation (x : A) (l : list A) :
  Permutation (x :: l) (insert compare x l).
Proof.
  induction l as [| y l IH]; simpl.
  - apply Permutation_refl.
  - destruct (compare x y); try apply Permutation_refl.
    eapply perm_trans; [apply perm_swap | apply perm_skip; exact IH].
Qed.

Lemma sort_permutation (l : list A) : Permutation l (sort compare l).
Proof.
  induction l as [| x l IH]; simpl.
  - apply perm_nil.
  - eapply perm_trans; [apply perm_skip; exact IH | apply insert_permutation].
Qed.

Hypothesis compare_total : forall a b, compare a b = Gt -> compare b a <> Gt.

Lemma insert_HdRel (a x : A) (l : list A) :
  ordered a x -> HdRel ordered a l -> HdRel ordered a (insert compare x l).
Proof.
  intros Hax Hal. destruct l as [| y l]; simpl.
  - constructor. exact Hax.
  - destruct (compare x y); constructor; try exact Hax.
    inversion Hal. assumption.
Qed.

Lemma insert_sorted (x : A) (l : list A) :
  Sorted ordered l -> Sorted ordered (insert compare x l).
Proof.
  induction 1 as [| y l Hs IH Hhd]; simpl.
  - repeat constructor.
  - destruct (compare x y) eqn:E.
    + constructor; [constructor; assumption | constructor; unfold before; congruence].
    + constructor; [constructor; assumption | constructor; unfold before; congruence].
    + constructor; [exact IH |].
      apply insert_HdRel; [apply compare_total; exact E | exact Hhd].
Qed.

Lemma sort_sorted (l : list A) : Sorted ordered (sort compare l).
Proof.
  induction l as [| x l IH]; simpl.
  - constructor.
  - apply insert_sorted. exact IH.
Qed.

Hypothesis compare_trans :
  forall a b c, ordered a b -> ordered b c -> ordered a c.

Lemma sort_strongly_sorted (l : list A) : StronglySorted ordered (sort compare l).
Proof.
  apply Sorted_StronglySorted.
  - intros a b c. apply compare_trans.
  - apply sort_sorted.
Qed.

(** Two sorted lists with the same elements are the same list, when no two
    distinct elements may stand before each other. *)
Lemma sorted_permutation_unique (l1 l2 : list A) :
  (forall a b, In a l1 -> In b l1 -> ordered a b -> ordered b a -> a = b) ->
  StronglySorted ordered l1 -> StronglySorted ordered l2 ->
  Permutation l1 l2 -> l1 = l2.
Proof.
  revert l2. induction l1 as [| a l1 IH]; intros l2 Hanti S1 S2 P.
  - apply Permutation_nil in P. symmetry. exact P.
  - destruct l2 as [| b l2].
    + apply Permutation_sym, Permutation_nil in P. discriminate.
    + apply StronglySorted_inv in S1. destruct S1 as [S1 F1].
      apply StronglySorted_inv in S2. destruct S2 as [S2 F2].
      rewrite Forall_forall in F1, F2.
      assert (Hb : In b (a :: l1)).
      { apply (Permutation_in b (Permutation_sym P)). left. reflexivity. }
      assert (Ha : In a (b :: l2)).
      { apply (Permutation_in a P). left. reflexivity. }
      assert (E : a = b).
      { destruct Hb as [Hb | Hb]; [exact Hb |].
        destruct Ha as [Ha | Ha]; [symmetry; exact Ha |].
        apply Hanti.
        - left. reflexivity.
        - right. exact Hb.
        - apply F1. exact Hb.
        - apply F2. exact Ha. }
      subst b. f_equal. apply IH.
      * intros x y Hx Hy. apply Hanti; right; assumption.
      * exact S1.
      * exact S2.
      * apply (Permutation_cons_inv P).
Qed.

Lemma sort_order_independent (l1 l2 : list A) :
  (forall a b, In a l1 -> In b l1 -> ordered a b -> ordered b a -> a = b) ->
  Permutation l1 l2 -> sort compare l1 = sort compare l2.
Proof.
  intros Hanti P. apply sorted_permutation_unique.
  - intros a b Ha Hb. apply Hanti.
    + apply (Permutation_in a (Permutation_sym (sort_permutation l1))). exact Ha.
    + apply (Permutation_in b (Permutation_sym (sort_permutation l1))). exact Hb.
  - apply sort_strongly_sorted.
  - apply sort_strongly_sorted.
  - eapply perm_trans; [apply Permutation_sym, sort_permutation |].
    eapply perm_trans; [exact P | apply sort_permutation].
Qed.

End SortFacts.

Lemma NoDup_keys_injective {V : Type} (obj : list (string * V))
  (a b : string * V) :
  NoDup (keys obj) -> In a obj -> In b obj -> fst a = fst b -> a = b.
Proof.
  unfold keys. induction obj as [| e obj IH]; simpl; intros Hnd Ha Hb E.
  - contradiction.
  - inversion Hnd as [| k ks Hnotin Hnd']; subst.
    destruct Ha as [-> | Ha], Hb as [-> | Hb].
    + reflexivity.
    + exfalso. apply Hnotin. rewrite E. apply in_map. exact Hb.
    + exfalso. apply Hnotin. rewrite <- E. apply in_map. exact Ha.
    + apply IH; assumption.
Qed.

(** ** The typography mixins *)

Section Typography.
Context {externals : Externals}.

(** C4, as amended. For every typography token, the block of its default
    value and the block of each of its mode values hold one line per
    property; the name on the line is the source key with a hyphen put
    between every character outside [A-Z] and a following character inside
    [A-Z], in lower case. The lines stand in the order of the source keys
    under [localeCompare]: the sort comes before the renaming and compares
    the source keys, not the emitted names. When [localeCompare] tells the
    keys of a value apart, that order, and with it the block, is the same
    for every order of the keys in the source. ([localeCompare] is taken to
    be a consistent comparator: total and transitive.) *)
Theorem typography_properties_sorted_by_key :
  (forall a b, localeCompare a b = Gt -> localeCompare b a <> Gt) ->
  (forall a b c, localeCompare a b <> Gt -> localeCompare b c <> Gt ->
                 localeCompare a c <> Gt) ->
  forall (out : list string) (token : ParsedTypographyToken),
    typography_body out token
    = out
      ++ [id_line (typography_id token); indent "default: (" 2]
      ++ property_block (typography_value token)
      ++ [close_line 2]
      ++ flat_map (fun entry =>
                     indent (dq ++ fst entry ++ dq ++ ": (")%string 2
                     :: property_block (snd entry) ++ [close_line 2])
                  (typography_modes token)
      ++ [close_line 1]
    /\ forall properties : list (string * TypographyProperty),
         property_block properties
         = map (fun kv =>
                  indent (dq ++ toLowerCase (hyphenate (fst kv)) ++ dq ++ ": ("
                          ++ property_text (snd kv) ++ "),")%string 3)
               (sort by_key properties)
         /\ Sorted (fun a b => localeCompare (fst a) (fst b) <> Gt)
                   (sort by_key properties)
         /\ Permutation properties (sort by_key properties)
         /\ forall properties',
              NoDup (keys properties) ->
              (forall a b, In a (keys properties) -> In b (keys properties) ->
                 localeCompare a b <> Gt -> localeCompare b a <> Gt -> a = b) ->
              Permutation properties properties' ->
              property_block properties' = property_block properties.
Proof.
  intros Htotal Htrans out token. split.
  - apply typography_body_lines.
  - intros properties. split; [reflexivity |]. split; [| split].
    + apply (@sort_sorted _ by_key).
      intros a b. apply Htotal.
    + apply sort_permutation.
    + intros properties' Hnd Hanti P. unfold property_block. f_equal.
      symmetry. apply sort_order_independent.
      * intros a b. apply Htotal.
      * intros a b c. apply Htrans.
      * intros a b Ha Hb Hab Hba.
        apply (NoDup_keys_injective properties); try assumption.
        apply Hanti; try assumption; unfold keys; apply in_map; assumption.
      * exact P.
Qed.

End Typography.

(** ** The typography tokens in the two maps *)

Lemma Forall2_map_right {A B : Type} (P : A -> B -> Prop) (f : A -> B)
  (l : list A) :
  (forall x, In x l -> P x (f x)) -> Forall2 P l (map f l).
Proof.
  induction l as [| x l IH]; intros H; simpl; constructor.
  - apply H. left. reflexivity.
  - apply IH. intros y Hy. apply H. right. exact Hy.
Qed.

Section Mixins.
Context {externals : Externals}.

(** Every property of a typography value has its line in the block of the
    value: the name, then the value as text. *)
Lemma property_block_In (properties : list (string * TypographyProperty))
  (k : string) (v : TypographyProperty) :
  In (k, v) properties ->
  In (indent (dq ++ toLowerCase (hyphenate k) ++ dq ++ ": ("
              ++ match v with
                 | PString s => s
                 | PNumber n => numberToString n
                 | PArray names => formatFontNames names
                 end ++ "),")%string 3)
     (property_block properties).
Proof.
  intros Hin. unfold property_block.
  apply (Permutation_in _ (sort_permutation by_key properties)) in Hin.
  apply (in_map property_line) in Hin.
  unfold property_line at 1 in Hin. simpl in Hin.
  destruct v; exact Hin.
Qed.

(** C8. In the output of a build that returns, the block of every
    typography token in the map of token values is the line of its id, the
    one key ["__cobalt-error"] with its message, and the closing line: it
    holds no property value. The property values of the token are written
    in the map of typography mixins: the block of the token there opens
    with its id and has, for every property of its [$value] and of each of
    its mode values, the line of that property with the value as text (a
    string as it is, a number printed, an array of font names formatted).
    Neither the caller's [transform] nor [defaultTransformer] has a part in
    it: the output is the same under every override that answers alike on
    the other tokens, and the build has returned although
    [defaultTransformer] throws on the token for every mode. *)
Theorem typography_token_entry (options : option Options) (w : World)
  (input : BuildInput) (output : list string) :
  build_output options w input = Ok output ->
  (exists blocks mixins,
     output = preamble options input
              ++ concat blocks
              ++ interlude options
              ++ concat mixins
              ++ utilities options
     /\ Forall2
          (fun token block =>
             forall t, as_typography token = Some t ->
               block = [id_line (id token); error_line (id token); close_line 1]
               /\ In t (typography_of (tokens input)))
          (tokens input) blocks
     /\ Forall2
          (fun t mixin =>
             (exists lines, mixin = id_line (typography_id t) :: lines)
             /\ forall properties,
                  properties = typography_value t
                  \/ (exists m, In (m, properties) (typography_modes t)) ->
                  forall k v, In (k, v) properties ->
                    In (indent (dq ++ toLowerCase (hyphenate k) ++ dq ++ ": ("
                                ++ match v with
                                   | PString s => s
                                   | PNumber n => numberToString n
                                   | PArray names => formatFontNames names
                                   end ++ "),")%string 3)
                       mixin)
          (typography_of (tokens input)) mixins)
  /\ (forall options',
        same_options (tokens input) options options' ->
        build_output options' w input = Ok output)
  /\ (forall token t,
        In token (tokens input) -> as_typography token = Some t ->
        forall mode_name, exists msg,
          defaultTransformer token mode_name = Throw msg).
Proof.
  intros H. split; [| split].
  - destruct (build_output_blocks _ _ _ H) as [blocks [Hout Hb]].
    exists blocks, (map typography_lines (typography_of (tokens input))).
    split; [rewrite <- flat_map_concat_map; exact Hout |]. split.
    + apply (Forall2_weaken _ (l := tokens input)) with (2 := Hb).
      intros token block Hin Hblock t Ht.
      rewrite (entry_lines_typography _ _ _ Ht) in Hblock. split; [congruence |].
      unfold typography_of. apply in_flat_map. exists token.
      split; [exact Hin |]. rewrite Ht. left. reflexivity.
    + apply Forall2_map_right. intros t _. split.
      * eexists. reflexivity.
      * intros properties Hwhere k v Hin. unfold typography_lines.
        apply in_or_app. right.
        destruct Hwhere as [-> | [m Hm]].
        -- apply in_or_app. left. apply property_block_In. exact Hin.
        -- apply in_or_app. right. apply in_or_app. right.
           apply in_or_app. left. apply in_flat_map.
           exists (m, properties). split; [exact Hm |].
           right. apply in_or_app. left. apply property_block_In. exact Hin.
  - intros options' Hs. rewrite <- H. symmetry.
    apply build_output_congruence; [exact Hs | reflexivity].
  - intros token t _ Ht. apply defaultTransformer_unhandled.
    apply (typography_unhandled token Ht).
Qed.

End Mixins.

(** ** The constants of the plugin *)

Section Constants.
Context {externals : Externals}.

Lemma filename_default (options : option Options) :
  chain options opt_filename = None ->
  filename options = ("index" ++ ext options)%string.
Proof. unfold filename. intros ->. reflexivity. Qed.

Lemma filename_strips (options : option Options) (stem suffix : string) :
  chain options opt_filename = Some (stem ++ suffix)%string ->
  suffix = ".sass"%string \/ suffix = ".scss"%string ->
  filename options
  = ((if truthy_string stem then stem else "index") ++ ext options)%string.
Proof.
  unfold filename. intros -> Hs. simpl.
  rewrite (replace_extension_strips stem Hs). reflexivity.
Qed.

Lemma scss_constants (options : option Options) :
  flag (chain options indentedSyntax) = false ->
  ext options = ".scss"%string /\ semi options = ";"%string
  /\ cbOpen options = " {"%string /\ cbClose options = "} "%string.
Proof. unfold ext, semi, cbOpen, cbClose. intros ->. auto. Qed.

Lemma utilities_written (options : option Options) (w : World)
  (input : BuildInput) (output : list string) :
  build_output options w input = Ok output ->
  In (TOKEN_FN options) output /\ In (LIST_MODES_FN options) output.
Proof.
  intros H. destruct (build_output_blocks _ _ _ H) as [blocks [-> _]].
  split; repeat (apply in_or_app; right); unfold utilities; simpl; tauto.
Qed.

(** C6, at the failing input. With [indentedSyntax: true] the extension is
    [".sass"] and [semi], [cbOpen] and [cbClose] are empty, yet the text of
    the function [token] keeps the brace the source writes out after
    [@if map.has-key($_token, $modeName)], and the text of the function
    [listModes] keeps the three semicolons the source writes out; both
    texts are lines of the output of every build that returns. *)
Theorem indented_syntax_keeps_delimiters (options : option Options) :
  flag (chain options indentedSyntax) = true ->
  ext options = ".sass"%string
  /\ semi options = EmptyString
  /\ cbOpen options = EmptyString
  /\ cbClose options = EmptyString
  /\ TOKEN_FN options
     = join nl
         ["@function token($tokenName, $modeName: default)";
          "  @if map.has-key($__token-values, $tokenName) == false";
          ("    @error " ++ dq ++ "No token named \" ++ dq ++ "#{$tokenName}\"
           ++ dq ++ dq)%string;
          "  $_token: map.get($__token-values, $tokenName)";
          ("  @if map.has-key($_token, " ++ dq ++ "__cobalt-error" ++ dq ++ ")")%string;
          ("    @error map.get($_token, " ++ dq ++ "__cobalt-error" ++ dq ++ ")")%string;
          "  @if map.has-key($_token, $modeName) {";
          "    @return map.get($_token, $modeName)";
          "  @else";
          "    @return map.get($_token, default)"]%string
  /\ LIST_MODES_FN options
     = join nl
         ["@function listModes($tokenName)";
          "  @if map.has-key($__token-values, $tokenName) == false";
          ("    @error " ++ dq ++ "No token named \" ++ dq ++ "#{$tokenName}\"
           ++ dq ++ dq)%string;
          "  $_modes: ();";
          "  @each $k in map.get($__token-values, $tokenName)";
          ("    @if $k != " ++ dq ++ "default" ++ dq)%string;
          "      $_modes: list.append($_modes, $k);";
          "  @return $_modes;"]%string
  /\ forall (w : World) (input : BuildInput) (output : list string),
       build_output options w input = Ok output ->
       In (TOKEN_FN options) output /\ In (LIST_MODES_FN options) output.
Proof.
  intros H.
  repeat (split;
          [unfold ext, TOKEN_FN, LIST_MODES_FN, semi, cbOpen, cbClose;
           rewrite H; vm_compute; reflexivity |]).
  intros w input output. apply utilities_written.
Qed.

End Constants.

(** ** The sample collation is a total order *)

Lemma string_compare_trans (a b c : string) :
  String.compare a b <> Gt -> String.compare b c <> Gt ->
  String.compare a c <> Gt.
Proof.
  revert b c. induction a as [| x a IH]; intros b c Hab Hbc.
  - destruct c; simpl; discriminate.
  - destruct b as [| y b]; [simpl in Hab; congruence |].
    destruct c as [| z c]; [simpl in Hbc; congruence |].
    simpl in *.
    destruct (Ascii.compare x y) eqn:Exy; [| | congruence].
    + apply Ascii.compare_eq_iff in Exy. subst y.
      destruct (Ascii.compare x z); [| discriminate | congruence].
      apply (IH b c); assumption.
    + destruct (Ascii.compare y z) eqn:Eyz; [| | congruence].
      * apply Ascii.compare_eq_iff in Eyz. subst z. rewrite Exy. discriminate.
      * assert (E : Ascii.compare x z = Lt).
        { unfold Ascii.compare in *.
          rewrite N.compare_lt_iff in *. lia. }
        rewrite E. discriminate.
Qed.

Lemma append_injective (x y u v : string) :
  String.length x = String.length y -> (x ++ u)%string = (y ++ v)%string ->
  u = v.
Proof.
  revert y. induction x as [| a x IH]; intros [| b y] Hlen H;
    simpl in *; try discriminate.
  - exact H.
  - injection H as _ H. apply (IH y); [lia | exact H].
Qed.

Lemma sample_key_injective (a b : string) :
  sample_key a = sample_key b -> a = b.
Proof.
  unfold sample_key. intros H.
  assert (Hlen : String.length a = String.length b).
  { apply (f_equal String.length) in H.
    rewrite !append_length, !toLowerCase_length in H. simpl in H. lia. }
  apply append_injective in H.
  - congruence.
  - rewrite !toLowerCase_length. exact Hlen.
Qed.

Lemma sample_collate_total (a b : string) :
  sample_collate a b = Gt -> sample_collate b a <> Gt.
Proof.
  unfold sample_collate. intros H.
  rewrite String.compare_antisym, H. discriminate.
Qed.

Lemma sample_collate_trans (a b c : string) :
  sample_collate a b <> Gt -> sample_collate b c <> Gt ->
  sample_collate a c <> Gt.
Proof. unfold sample_collate. apply string_compare_trans. Qed.

Lemma sample_collate_antisym (a b : string) :
  sample_collate a b <> Gt -> sample_collate b a <> Gt -> a = b.
Proof.
  unfold sample_collate. intros Hab Hba.
  rewrite String.compare_antisym in Hba.
  destruct (String.compare (sample_key a) (sample_key b)) eqn:E.
  - apply sample_key_injective. apply String.compare_eq_iff. exact E.
  - simpl in Hba. congruence.
  - congruence.
Qed.

(** ** Runs of the model on the sample inputs *)

Section Runs.
#[local] Existing Instance sample.

Ltac run := vm_compute; reflexivity.

Ltac absent :=
  vm_compute; intros H;
  repeat (destruct H as [H | H]; [discriminate H |]); exact H.

Ltac present := vm_compute; repeat (first [left; reflexivity | right]).

(** C1, the claim as stated fails. A typography token under an override
    that answers ["X"] for every token and mode: the output has no value
    line with ["X"]. A link token under [embedFiles: true] and no override:
    [defaultTransformer] returns [url('alert.svg')], the output has no
    value line with it, and has the line with its encoding. *)
Lemma emitted_value_counterexample :
  (override shouting body None = Some "X"%string
   /\ exists output,
        build_output shouting fresh (input_of [body]) = Ok output
        /\ ~ In (value_line None "X") output)
  /\ (override embedding alert None = None
      /\ defaultTransformer alert None = Ok "url('alert.svg')"%string
      /\ exists output,
           build_output embedding configured (input_of [alert]) = Ok output
           /\ ~ In (value_line None "url('alert.svg')") output
           /\ In (value_line None
                    (encode "url('alert.svg')" "file:///project/tokens/"))
                 output).
Proof.
  split.
  - split; [reflexivity |]. eexists. split; [run | absent].
  - split; [reflexivity |]. split; [reflexivity |].
    eexists. split; [run |]. split; [absent |].
    vm_compute. do 11 right. left. reflexivity.
Qed.

Lemma build_writes_override_or_default_witness :
  override rebranding red None = Some "brand"%string
  /\ override rebranding red (Some "dark"%string) = None
  /\ override rebranding alert None = Some EmptyString
  /\ exists output,
       build_output rebranding configured (input_of [red; alert; body]) = Ok output
       /\ In (value_line None "brand") output
       /\ In (value_line (Some "dark"%string) "#a00") output
       /\ In (value_line None (encode "url('alert.svg')" "file:///project/tokens/"))
             output
       /\ (exists blocks,
             output = preamble rebranding (input_of [red; alert; body])
                      ++ concat blocks
                      ++ interlude rebranding
                      ++ flat_map typography_lines (typography_of [red; alert; body])
                      ++ utilities rebranding
             /\ Forall2
                  (fun token block =>
                     match as_typography token with
                     | Some _ =>
                         block = [id_line (id token); error_line (id token);
                                  close_line 1]
                     | None =>
                         exists values,
                           block = id_line (id token)
                                   :: map (fun sv => value_line (fst sv) (snd sv))
                                          (combine (slots token) values)
                                   ++ [close_line 1]
                           /\ Forall2
                                (fun slot value =>
                                   exists v,
                                     (if truthy (override rebranding token slot)
                                      then override rebranding token slot = Some v
                                      else defaultTransformer token slot = Ok v)
                                     /\ (if embeds rebranding token
                                         then exists dir,
                                             config_outDir configured = Ok dir
                                             /\ value = encode v dir
                                         else value = v))
                                (slots token) values
                     end)
                  [red; alert; body] blocks)
       /\ (forall options',
             same_options [red; alert; body] rebranding options' ->
             build_output options' configured (input_of [red; alert; body])
             = Ok output)
       /\ (forall token t,
             In token [red; alert; body] -> as_typography token = Some t ->
             forall mode_name, exists msg,
               defaultTransformer token mode_name = Throw msg).
Proof.
  split; [reflexivity |]. split; [reflexivity |]. split; [reflexivity |].
  eexists. split; [run |].
  split; [present |]. split; [present |]. split; [present |].
  apply (build_writes_override_or_default rebranding configured
           (input_of [red; alert; body])).
  run.
Defined.



Lemma build_emission_order_witness :
  mode_names red = ["dark"; "light"]%string
  /\ exists output,
    build_output no_options fresh (input_of [red; body]) = Ok output
    /\ firstn 8 (skipn 10 output)
       = [id_line "color.red";
          value_line None "#f00";
          value_line (Some "dark"%string) "#a00";
          value_line (Some "light"%string) "#f88";
          close_line 1;
          id_line "type.body";
          error_line "type.body";
          close_line 1]
    /\ exists blocks,
         output = preamble no_options (input_of [red; body])
                  ++ concat blocks
                  ++ interlude no_options
                  ++ flat_map
                       (fun t =>
                          [id_line (typography_id t); indent "default: (" 2]
                          ++ property_block (typography_value t)
                          ++ [close_line 2]
                          ++ flat_map
                               (fun entry =>
                                  indent (dq ++ fst entry ++ dq ++ ": (")%string 2
                                  :: property_block (snd entry) ++ [close_line 2])
                               (typography_modes t)
                          ++ [close_line 1])
                       (typography_of [red; body])
                  ++ utilities no_options
         /\ Forall2
              (fun token block =>
                 match as_typography token with
                 | Some _ =>
                     block = [id_line (id token); error_line (id token); close_line 1]
                 | None =>
                     exists default_value mode_values,
                       length mode_values = length (mode_names token)
                       /\ block = id_line (id token)
                                  :: value_line None default_value
                                  :: map (fun mv => value_line (Some (fst mv)) (snd mv))
                                         (combine (mode_names token) mode_values)
                                  ++ [close_line 1]
                 end)
              [red; body] blocks.
Proof.
  split; [reflexivity |].
  eexists. split; [run |]. split; [run |].
  apply (build_emission_order no_options fresh (input_of [red; body])).
  run.
Defined.

(** C4, the claim as stated fails. The keys [fontSize] and [fontfamily]
    are sorted as source keys, [fontfamily] first; the names written are
    [fontfamily] and [font-size] in that order, which is neither the order
    of the collation nor the order of the code units. *)
Lemma typography_names_counterexample :
  as_typography body = Some body_mixin
  /\ localeCompare "fontfamily" "fontSize" = Lt
  /\ typography_body [] body_mixin
     = [indent (dq ++ "type.body" ++ dq ++ ": (")%string 1;
        indent "default: (" 2;
        indent (dq ++ "fontfamily" ++ dq ++ ": (Inter, sans-serif),")%string 3;
        indent (dq ++ "font-size" ++ dq ++ ": (16px),")%string 3;
        indent ")," 2;
        indent (dq ++ "large" ++ dq ++ ": (")%string 2;
        indent (dq ++ "font-size" ++ dq ++ ": (20px),")%string 3;
        indent ")," 2;
        indent ")," 1]
  /\ localeCompare "fontfamily" "font-size" = Gt
  /\ String.compare "fontfamily" "font-size" = Gt
  /\ ~ Sorted (fun a b => localeCompare a b <> Gt)
              ["fontfamily"; "font-size"]%string.
Proof.
  repeat split.
  intros H. inversion H as [| a l _ Hhd]; subst.
  inversion Hhd as [| b l' Hab]; subst. apply Hab. reflexivity.
Qed.

Lemma typography_properties_sorted_by_key_witness :
  typography_body [] body_mixin
  = [id_line "type.body"; indent "default: (" 2]
    ++ property_block (typography_value body_mixin)
    ++ [close_line 2]
    ++ flat_map (fun entry =>
                   indent (dq ++ fst entry ++ dq ++ ": (")%string 2
                   :: property_block (snd entry) ++ [close_line 2])
                (typography_modes body_mixin)
    ++ [close_line 1]
  /\ Sorted (fun a b => localeCompare (fst a) (fst b) <> Gt)
            (sort by_key (typography_value body_mixin))
  /\ property_block [("fontfamily", PArray ["Inter"; "sans-serif"]);
                     ("fontSize", PString "16px")]
     = property_block (typography_value body_mixin).
Proof.
  destruct (@typography_properties_sorted_by_key sample
              sample_collate_total sample_collate_trans
              [] body_mixin) as [Hbody Hblock].
  split; [exact Hbody |].
  destruct (Hblock (typography_value body_mixin)) as [_ [Hsorted [_ Hperm]]].
  split; [exact Hsorted |].
  apply Hperm.
  - repeat constructor; simpl; intuition discriminate.
  - intros a b _ _. apply sample_collate_antisym.
  - apply perm_swap.
Defined.



Lemma indented_syntax_keeps_delimiters_witness :
  flag (chain indented indentedSyntax) = true
  /\ (
  ext indented = ".sass"%string
  /\ semi indented = EmptyString
  /\ cbOpen indented = EmptyString
  /\ cbClose indented = EmptyString
  /\ TOKEN_FN indented
     = join nl
         ["@function token($tokenName, $modeName: default)";
          "  @if map.has-key($__token-values, $tokenName) == false";
          ("    @error " ++ dq ++ "No token named \" ++ dq ++ "#{$tokenName}\"
           ++ dq ++ dq)%string;
          "  $_token: map.get($__token-values, $tokenName)";
          ("  @if map.has-key($_token, " ++ dq ++ "__cobalt-error" ++ dq ++ ")")%string;
          ("    @error map.get($_token, " ++ dq ++ "__cobalt-error" ++ dq ++ ")")%string;
          "  @if map.has-key($_token, $modeName) {";
          "    @return map.get($_token, $modeName)";
          "  @else";
          "    @return map.get($_token, default)"]%string
  /\ LIST_MODES_FN indented
     = join nl
         ["@function listModes($tokenName)";
          "  @if map.has-key($__token-values, $tokenName) == false";
          ("    @error " ++ dq ++ "No token named \" ++ dq ++ "#{$tokenName}\"
           ++ dq ++ dq)%string;
          "  $_modes: ();";
          "  @each $k in map.get($__token-values, $tokenName)";
          ("    @if $k != " ++ dq ++ "default" ++ dq)%string;
          "      $_modes: list.append($_modes, $k);";
          "  @return $_modes;"]%string
  /\ forall (w : World) (input : BuildInput) (output : list string),
       build_output indented w input = Ok output ->
       In (TOKEN_FN indented) output /\ In (LIST_MODES_FN indented) output).
Proof.
  assert (Hflag : flag (chain indented indentedSyntax) = true) by reflexivity.
  split; [exact Hflag |].
  apply (indented_syntax_keeps_delimiters indented Hflag).
Defined.

Lemma config_is_read_only_witness :
  store (config 0 fresh) = store fresh
  /\ closure_config (config 0 fresh) = Some 0
  /\ fst (build embedding configured (input_of [red; alert; body])) = configured
  /\ config_outDir elsewhere = config_outDir configured
  /\ snd (build embedding elsewhere (input_of [red; alert; body]))
     = snd (build embedding configured (input_of [red; alert; body])).
Proof.
  destruct (config_is_read_only embedding 0 fresh (input_of [red; alert; body]))
    as [Hstore [Hclosure _]].
  destruct (config_is_read_only embedding 0 configured (input_of [red; alert; body]))
    as [_ [_ [Hworld Hread]]].
  split; [exact Hstore |]. split; [exact Hclosure |]. split; [exact Hworld |].
  split; [reflexivity |]. apply Hread. reflexivity.
Defined.

Lemma typography_token_entry_witness :
  exists output,
    build_output shouting fresh (input_of [body; red]) = Ok output
    /\ In (indent (dq ++ "font-size" ++ dq ++ ": (16px),")%string 3) output
    /\ In (indent (dq ++ "fontfamily" ++ dq ++ ": (Inter, sans-serif),")%string 3)
          output
    /\ In (indent (dq ++ "font-size" ++ dq ++ ": (20px),")%string 3) output
    /\ (exists blocks mixins,
          output = preamble shouting (input_of [body; red])
                   ++ concat blocks
                   ++ interlude shouting
                   ++ concat mixins
                   ++ utilities shouting
          /\ Forall2
               (fun token block =>
                  forall t, as_typography token = Some t ->
                    block = [id_line (id token); error_line (id token); close_line 1]
                    /\ In t (typography_of [body; red]))
               [body; red] blocks
          /\ Forall2
               (fun t mixin =>
                  (exists lines, mixin = id_line (typography_id t) :: lines)
                  /\ forall properties,
                       properties = typography_value t
                       \/ (exists m, In (m, properties) (typography_modes t)) ->
                       forall k v, In (k, v) properties ->
                         In (indent (dq ++ toLowerCase (hyphenate k) ++ dq ++ ": ("
                                     ++ match v with
                                        | PString s => s
                                        | PNumber n => numberToString n
                                        | PArray names => formatFontNames names
                                        end ++ "),")%string 3)
                            mixin)
               (typography_of [body; red]) mixins)
    /\ same_options [body; red] shouting selective
    /\ build_output selective fresh (input_of [body; red]) = Ok output
    /\ (forall mode_name, exists msg,
          defaultTransformer body mode_name = Throw msg).
Proof.
  eexists. split; [run |].
  split; [present |]. split; [present |]. split; [present |].
  edestruct (@typography_token_entry sample shouting fresh (input_of [body; red]))
    as [Hblocks [Hsame Hthrows]]; [run |].
  split; [exact Hblocks |].
  assert (Hs : same_options [body; red] shouting selective).
  { repeat split. intros token slot [<- | [<- | []]] Ht.
    - discriminate Ht.
    - reflexivity. }
  split; [exact Hs |]. split; [apply Hsame; exact Hs |].
  apply (Hthrows body body_mixin); [left; reflexivity | reflexivity].
Defined.



(** C10, the claim as stated fails. The mode [dark] of the colour holds the
    empty string, and the second token has a type without a transformer;
    in both cases [build] throws and returns no [BuildResult]. *)
Lemma build_rejects_counterexample :
  build_result no_options configured (input_of [faded])
  = Throw ("Token color.faded missing " ++ dq ++ "$extensions.mode.dark" ++ dq)%string
  /\ build_result no_options configured (input_of [ratio])
     = Throw "No transformer defined for $type: number tokens".
Proof. split; reflexivity. Qed.

Lemma build_returns_one_result_witness :
  (forall token slot,
     In token (tokens (input_of [red; body])) -> as_typography token = None ->
     In slot (slots token) ->
     (truthy (override no_options token slot) = true
      \/ exists v, defaultTransformer token slot = Ok v)
     /\ (embeds no_options token = true ->
         exists dir, config_outDir fresh = Ok dir))
  /\ exists output,
       build_output no_options fresh (input_of [red; body]) = Ok output
       /\ build_result no_options fresh (input_of [red; body])
          = Ok [ {| result_filename := "index.scss"; contents := join nl output |} ].
Proof.
  assert (Hall : forall token slot,
             In token (tokens (input_of [red; body])) ->
             as_typography token = None ->
             In slot (slots token) ->
             (truthy (override no_options token slot) = true
              \/ exists v, defaultTransformer token slot = Ok v)
             /\ (embeds no_options token = true ->
                 exists dir, config_outDir fresh = Ok dir)).
  { intros token slot [<- | [<- | []]] Ht Hslot.
    - split; [| discriminate].
      destruct Hslot as [<- | [<- | [<- | []]]]; right; eexists; reflexivity.
    - discriminate Ht. }
  split; [exact Hall |].
  apply (build_returns_one_result no_options fresh (input_of [red; body]) Hall).
Defined.

End Runs.

(** ** The replacement of trailing white space *)

(** What the scan returns: the replaced text keeps no white space at a line
    end and keeps every other character; where nothing matched at the
    start, the text still starts as the input does. *)
Lemma scan_trailing_ws_invariant (s : string) :
  no_trailing_space (fst (scan_trailing_ws s))
  /\ visible (fst (scan_trailing_ws s)) = visible s
  /\ (snd (scan_trailing_ws s) = None ->
      at_line_end (fst (scan_trailing_ws s)) = at_line_end s)
  /\ (forall rest, snd (scan_trailing_ws s) = Some rest ->
      fst (scan_trailing_ws s) = rest).
Proof.
  induction s as [| c r IH].
  - simpl. repeat split; intros; discriminate.
  - simpl. destruct (scan_trailing_ws r) as [out_r longer]. simpl in IH.
    destruct IH as [Hclean [Hvis [Hnone Hsome]]].
    destruct (is_space c) eqn:Hc.
    + destruct longer as [rest |].
      * pose proof (Hsome rest eq_refl) as E0. subst rest. simpl.
        repeat split; try assumption; try discriminate.
        all: intros rest' E; injection E as <-; reflexivity.
      * destruct (at_line_end r) eqn:Hend; simpl.
        -- repeat split; try assumption; try discriminate.
           intros rest' E. injection E as <-. reflexivity.
        -- rewrite Hc. repeat split; try assumption; try discriminate.
           intros _. apply Hnone. reflexivity.
    + simpl. rewrite Hc. repeat split; try assumption; try discriminate.
      rewrite Hvis. reflexivity.
Qed.

(** A text without white space at a line end is left as it is. *)
Lemma scan_trailing_ws_clean (s : string) :
  no_trailing_space s -> scan_trailing_ws s = (s, None).
Proof.
  induction s as [| c r IH]; simpl; intros H.
  - reflexivity.
  - destruct H as [Hc Hr]. rewrite (IH Hr).
    destruct (is_space c).
    + rewrite (Hc eq_refl). reflexivity.
    + reflexivity.
Qed.

Lemma no_trailing_space_split (s : string) :
  no_trailing_space s ->
  forall a c b, s = (a ++ String c b)%string -> is_space c = true ->
                at_line_end b = false.
Proof.
  induction s as [| x s IH]; intros H a c b E Hc.
  - destruct a; discriminate E.
  - destruct H as [Hx Hs]. destruct a as [| y a]; simpl in E.
    + injection E as -> ->. apply Hx. exact Hc.
    + injection E as _ E. apply (IH Hs a c b E Hc).
Qed.

Section Utilities.
Context {externals : Externals}.

(** X1. The replacement [s.replace(TRAILING_WS_RE, '')] leaves no
    white-space character at the end of a line: in its result no white-space
    character is the last one or stands before a line terminator (so no line
    is blank either). The texts of the functions [token] and [listModes]
    and of the mixin [typography] are such results, for every option. *)
Theorem replace_trailing_ws_clears_line_ends :
  (forall s a c b,
     replace_trailing_ws s = (a ++ String c b)%string ->
     is_space c = true -> at_line_end b = false)
  /\ forall options : option Options,
       no_trailing_space (TOKEN_FN options)
       /\ no_trailing_space (LIST_MODES_FN options)
       /\ no_trailing_space (TYPOGRAPHY_MIXIN options).
Proof.
  split.
  - intros s a c b E.
    apply (@no_trailing_space_split (replace_trailing_ws s)) with (a := a).
    + apply scan_trailing_ws_invariant.
    + exact E.
  - intros options. unfold TOKEN_FN, LIST_MODES_FN, TYPOGRAPHY_MIXIN.
    repeat split; apply scan_trailing_ws_invariant.
Qed.

End Utilities.

(** X2. The replacement [s.replace(TRAILING_WS_RE, '')] removes white space
    and nothing else: the characters that are not white space are the same,
    in the same order, before and after. *)
Theorem replace_trailing_ws_keeps_visible (s : string) :
  visible (replace_trailing_ws s) = visible s.
Proof. apply scan_trailing_ws_invariant. Qed.

(** X3. A text that has no white space at a line end is returned unchanged
    by [s.replace(TRAILING_WS_RE, '')]; in particular the replacement is
    idempotent. *)
Theorem replace_trailing_ws_fixed_point (s : string) :
  (no_trailing_space s -> replace_trailing_ws s = s)
  /\ replace_trailing_ws (replace_trailing_ws s) = replace_trailing_ws s.
Proof.
  assert (H : forall t, no_trailing_space t -> replace_trailing_ws t = t).
  { intros t Ht. unfold replace_trailing_ws.
    rewrite (scan_trailing_ws_clean t Ht). reflexivity. }
  split; [apply H |]. apply H. apply scan_trailing_ws_invariant.
Qed.

(** ** The file name *)

Lemma append_nil_r (s : string) : (s ++ EmptyString)%string = s.
Proof. induction s as [| c s IH]; simpl; [reflexivity | rewrite IH; reflexivity]. Qed.

Lemma replace_extension_step (c : ascii) (r : string) :
  String c r <> ".sass"%string -> String c r <> ".scss"%string ->
  replace_extension (String c r) = String c (replace_extension r).
Proof.
  intros H1 H2.
  change (replace_extension (String c r))
    with (if (String c r =? ".sass")%string || (String c r =? ".scss")%string
          then EmptyString
          else String c (replace_extension r)).
  destruct (String.eqb_spec (String c r) ".sass"); [contradiction |].
  destruct (String.eqb_spec (String c r) ".scss"); [contradiction |].
  reflexivity.
Qed.

(** The replacement drops one trailing extension when there is one and
    changes nothing otherwise. *)
Lemma replace_extension_cases (s : string) :
  (exists stem,
     (s = (stem ++ ".sass")%string \/ s = (stem ++ ".scss")%string)
     /\ replace_extension s = stem)
  \/ (~ has_extension s /\ replace_extension s = s).
Proof.
  induction s as [| c r IH].
  - right. split; [| reflexivity].
    intros [stem [E | E]]; apply (f_equal String.length) in E;
      rewrite append_length in E; simpl in E; lia.
  - destruct (String.eqb_spec (String c r) ".sass") as [E1 | N1].
    { left. exists EmptyString. rewrite E1. split; [left |]; reflexivity. }
    destruct (String.eqb_spec (String c r) ".scss") as [E2 | N2].
    { left. exists EmptyString. rewrite E2. split; [right |]; reflexivity. }
    rewrite (replace_extension_step N1 N2).
    destruct IH as [[stem [Hr Hstem]] | [Hno Hsame]].
    + left. exists (String c stem). rewrite Hstem. split; [| reflexivity].
      destruct Hr as [-> | ->]; [left | right]; reflexivity.
    + right. rewrite Hsame. split; [| reflexivity].
      intros [stem [E | E]]; destruct stem as [| x stem]; simpl in E;
        try congruence; injection E as _ E; apply Hno; exists stem; auto.
Qed.

(** X4. [filename.replace(/(\.(sass|scss))?$/, '')] drops exactly one
    trailing [".sass"] or [".scss"] when the name ends with one, whatever
    stands before it, and returns every other name unchanged. *)
Theorem replace_extension_drops_one_extension (s : string) :
  (forall stem,
     s = (stem ++ ".sass")%string \/ s = (stem ++ ".scss")%string ->
     replace_extension s = stem)
  /\ (~ has_extension s -> replace_extension s = s).
Proof.
  split.
  - intros stem [-> | ->]; apply replace_extension_strips; auto.
  - intros Hno. destruct (replace_extension_cases s) as [[stem [Hs _]] | [_ H]].
    + exfalso. apply Hno. exists stem. exact Hs.
    + exact H.
Qed.

Section FileName.
Context {externals : Externals}.

(** X5. The file name the plugin computes is a non-empty stem followed by
    the extension of the chosen syntax, whatever the caller wrote: the stem
    is the given name without one trailing [".sass"] or [".scss"], and it is
    ["index"] when no name is given or nothing is left of it. *)
Theorem filename_has_stem_and_extension (options : option Options) :
  exists stem,
    filename options = (stem ++ ext options)%string
    /\ stem <> EmptyString
    /\ (ext options = ".sass"%string \/ ext options = ".scss"%string)
    /\ match chain options opt_filename with
       | None => stem = "index"%string
       | Some given =>
           (given = stem /\ ~ has_extension given)
           \/ given = (stem ++ ".sass")%string
           \/ given = (stem ++ ".scss")%string
           \/ (stem = "index"%string
               /\ (given = EmptyString \/ given = ".sass"%string
                   \/ given = ".scss"%string))
       end.
Proof.
  assert (Hext : ext options = ".sass"%string \/ ext options = ".scss"%string).
  { unfold ext. destruct (flag (chain options indentedSyntax)); auto. }
  unfold filename. destruct (chain options opt_filename) as [given |]; simpl.
  - unfold truthy_string.
    destruct (String.eqb_spec (replace_extension given) EmptyString) as [E | N];
      simpl.
    + exists "index"%string. repeat split; try discriminate; try exact Hext.
      do 3 right. split; [reflexivity |].
      destruct (replace_extension_cases given) as [[stem [Hs Hstem]] | [_ H]].
      * rewrite E in Hstem. subst stem. simpl in Hs. tauto.
      * left. congruence.
    + exists (replace_extension given).
      repeat split; try assumption.
      destruct (replace_extension_cases given) as [[stem [Hs Hstem]] | [Hno H]].
      * rewrite Hstem. tauto.
      * rewrite H. left. split; [reflexivity | exact Hno].
  - exists "index"%string. repeat split; try discriminate; exact Hext.
Qed.

End FileName.

(** ** The names of the typography properties *)

Lemma lower_not_upper (c : ascii) : is_upper (lower c) = false.
Proof.
  unfold lower. destruct (is_upper c) eqn:Hc; [| exact Hc].
  unfold is_upper in *. apply andb_prop in Hc. destruct Hc as [H1 H2].
  apply Nat.leb_le in H1, H2.
  rewrite nat_ascii_embedding by lia.
  apply andb_false_intro2. apply Nat.leb_gt. lia.
Qed.

Lemma toLowerCase_no_upper (s : string) : no_upper (toLowerCase s).
Proof.
  induction s as [| c s IH]; simpl; [exact I |].
  split; [apply lower_not_upper | exact IH].
Qed.

Lemma toLowerCase_same (s : string) : no_upper s -> toLowerCase s = s.
Proof.
  induction s as [| c s IH]; simpl; intros H; [reflexivity |].
  destruct H as [Hc Hs]. unfold lower. rewrite Hc, (IH Hs). reflexivity.
Qed.

Lemma hyphenate_same (s : string) : no_upper s -> hyphenate s = s.
Proof.
  induction s as [| a r IH]; intros H; [reflexivity |].
  destruct H as [Ha Hr]. simpl. destruct r as [| b r']; [reflexivity |].
  destruct Hr as [Hb Hr']. rewrite Hb, andb_false_r.
  rewrite (IH (conj Hb Hr')). reflexivity.
Qed.

Lemma property_name_of_same (k : string) :
  no_upper k -> property_name_of k = k.
Proof.
  intros H. unfold property_name_of.
  rewrite replace_camelcase_hyphenate, (hyphenate_same k H).
  apply toLowerCase_same. exact H.
Qed.

(** X6. A property key of ASCII characters without a letter in [A-Z], such
    as one that is already hyphenated, is written as it is:
    [k.replace(CAMELCASE_RE, '$1-$2').toLowerCase()] returns [k]. *)
Theorem property_name_unchanged_without_upper (k : string) :
  ascii_only k -> no_upper k -> toLowerCase (replace_camelcase k) = k.
Proof. intros _. apply property_name_of_same. Qed.

(** X7. The name written for a property key never holds a letter in
    [A-Z], whatever the key. *)
Theorem property_name_has_no_upper (k : string) :
  no_upper (toLowerCase (replace_camelcase k)).
Proof. apply toLowerCase_no_upper. Qed.

(** X8. Renaming is idempotent: the name written for a key is its own
    name. A key in camelCase and the same key already hyphenated are
    therefore written under one name. *)
Theorem property_name_idempotent (k : string) :
  property_name_of (property_name_of k) = property_name_of k.
Proof.
  apply property_name_of_same. unfold property_name_of.
  apply toLowerCase_no_upper.
Qed.

(** ** Errors and what [build] reads *)

Lemma mapM_first_error {A B : Type} (f : A -> Result B) (pre post : list A)
  (x : A) (msg : string) :
  (forall y, In y pre -> exists b, f y = Ok b) ->
  f x = Throw msg ->
  mapM f (pre ++ x :: post) = Throw msg.
Proof.
  induction pre as [| y pre IH]; simpl; intros Hpre Hx.
  - rewrite Hx. reflexivity.
  - destruct (Hpre y (or_introl eq_refl)) as [b ->]. simpl.
    rewrite IH; [reflexivity | | exact Hx].
    intros z Hz. apply Hpre. right. exact Hz.
Qed.

Lemma Forall2_In_left {A B : Type} (P : A -> B -> Prop) (l : list A)
  (r : list B) (x : A) :
  Forall2 P l r -> In x l -> exists y, P x y.
Proof.
  induction 1 as [| a b l r Hab _ IH]; intros Hin.
  - contradiction.
  - destruct Hin as [<- | Hin]; [exists b; exact Hab | apply IH; exact Hin].
Qed.

Section Errors.
Context {externals : Externals}.

Lemma as_typography_link (token : ParsedToken) :
  type_ token = "link"%string -> as_typography token = None.
Proof.
  destruct token as [i ty v e]. simpl. intros ->. reflexivity.
Qed.

Lemma entry_lines_total (options : option Options) (w : World)
  (token : ParsedToken) :
  (as_typography token = None ->
   forall slot, In slot (slots token) ->
     (truthy (override options token slot) = true
      \/ exists v, defaultTransformer token slot = Ok v)
     /\ (embeds options token = true -> exists dir, config_outDir w = Ok dir)) ->
  exists block, entry_lines options w token = Ok block.
Proof.
  intros H. unfold entry_lines.
  destruct (as_typography token) as [t |]; [eexists; reflexivity |].
  destruct (mapM_total (emitted_value options w token) (slots token))
    as [values Hv].
  - intros slot Hslot. destruct (H eq_refl slot Hslot) as [Hv Hd].
    apply emitted_value_total; assumption.
  - rewrite Hv. simpl. eexists. reflexivity.
Qed.

(** X9. [build] stops at the first value it cannot produce, in the order in
    which it writes: when every value of the tokens before a token and of
    the slots before a slot of that token can be produced, and for that slot
    the override gives no value and [defaultTransformer] throws, then the
    error of [build] is that error; later tokens and slots are not looked
    at. *)
Theorem build_throws_first_error (options : option Options) (w : World)
  (input : BuildInput) (pre post : list ParsedToken) (token : ParsedToken)
  (earlier later : list (option string)) (slot : option string)
  (msg : string) :
  tokens input = pre ++ token :: post ->
  (forall t s, In t pre -> as_typography t = None -> In s (slots t) ->
     (truthy (override options t s) = true
      \/ exists v, defaultTransformer t s = Ok v)
     /\ (embeds options t = true -> exists dir, config_outDir w = Ok dir)) ->
  as_typography token = None ->
  slots token = earlier ++ slot :: later ->
  (forall s, In s earlier ->
     (truthy (override options token s) = true
      \/ exists v, defaultTransformer token s = Ok v)
     /\ (embeds options token = true -> exists dir, config_outDir w = Ok dir)) ->
  truthy (override options token slot) = false ->
  defaultTransformer token slot = Throw msg ->
  build_result options w input = Throw msg.
Proof.
  intros Htokens Hpre Htoken Hslots Hearlier Hov Hdef.
  assert (Hentry : entry_lines options w token = Throw msg).
  { unfold entry_lines. rewrite Htoken, Hslots.
    rewrite (mapM_first_error (emitted_value options w token) earlier later slot (msg := msg)).
    - reflexivity.
    - intros s Hs. destruct (Hearlier s Hs) as [Hv Hd].
      apply emitted_value_total; assumption.
    - unfold emitted_value. rewrite Hov, Hdef. reflexivity. }
  unfold build_result. rewrite build_output_text, Htokens.
  rewrite (mapM_first_error (entry_lines options w) pre post token (msg := msg)).
  - reflexivity.
  - intros t Ht. apply entry_lines_total. intros Hty s Hs.
    apply Hpre; assumption.
  - exact Hentry.
Qed.

(** X10. A build that returns has produced every value: for each token that
    is not a typography token and each of its slots, the override answered
    a non-empty string or [defaultTransformer] did not throw, and the
    configuration was there to read when the value of a link was embedded.
    No token is skipped on an error. *)
Theorem build_returns_only_complete (options : option Options) (w : World)
  (input : BuildInput) (results : list BuildResult) :
  build_result options w input = Ok results ->
  forall token slot,
    In token (tokens input) -> as_typography token = None ->
    In slot (slots token) ->
    (truthy (override options token slot) = true
     \/ exists v, defaultTransformer token slot = Ok v)
    /\ (embeds options token = true -> exists dir, config_outDir w = Ok dir).
Proof.
  unfold build_result. intros H token slot Hin Hty Hslot.
  apply bind_inv in H. destruct H as [output [Hout _]].
  destruct (build_output_blocks _ _ _ Hout) as [blocks [_ Hblocks]].
  destruct (Forall2_In_left token Hblocks Hin) as [block Hblock].
  destruct (entry_lines_values _ _ _ Hty Hblock) as [values [_ Hvalues]].
  destruct (Forall2_In_left slot Hvalues Hslot) as [value Hvalue].
  destruct (emitted_value_Ok _ _ _ _ Hvalue) as [v [Hv Hd]].
  split.
  - destruct (truthy (override options token slot)); [left; reflexivity |].
    right. exists v. exact Hv.
  - intros He. rewrite He in Hd. destruct Hd as [dir [Hdir _]].
    exists dir. exact Hdir.
Qed.

(** X11. Unless the value of a link is to be embedded, [build] does not
    read the configuration: its result is the same in every world, before
    the [config] step as well as after it. *)
Theorem build_ignores_config_without_embedding (options : option Options)
  (input : BuildInput) :
  existsb (embeds options) (tokens input) = false ->
  forall w1 w2, build_result options w1 input = build_result options w2 input.
Proof.
  intros Hno w1 w2. apply build_result_congruence.
  - apply same_options_refl.
  - rewrite Hno. discriminate.
Qed.

(** X12. With [embedFiles] set and a link among the tokens, a [build] that
    runs before the [config] step always throws, whatever the override
    answers: [config.outDir] is read from [undefined]. *)
Theorem build_embedding_needs_config (options : option Options) (w : World)
  (input : BuildInput) (token : ParsedToken) :
  closure_config w = None ->
  In token (tokens input) ->
  type_ token = "link"%string ->
  flag (chain options embedFiles) = true ->
  exists msg, build_result options w input = Throw msg.
Proof.
  intros Hw Hin Hlink Hflag.
  assert (Hv : exists msg, emitted_value options w token None = Throw msg).
  { unfold emitted_value, embeds, config_outDir.
    rewrite Hlink, Hflag, Hw. simpl.
    destruct (if truthy (override options token None)
              then Ok (or_string (override options token None) EmptyString)
              else defaultTransformer token None) as [v | msg]; simpl;
      eexists; reflexivity. }
  destruct Hv as [msg Hv].
  apply (@build_rejects _ options w input token None msg).
  - exact Hin.
  - apply as_typography_link. exact Hlink.
  - left. reflexivity.
  - exact Hv.
Qed.

Lemma without_transform_fields (options : option Options) :
  chain (without_transform options) opt_filename = chain options opt_filename
  /\ chain (without_transform options) indentedSyntax
     = chain options indentedSyntax
  /\ chain (without_transform options) embedFiles = chain options embedFiles
  /\ forall token slot, override (without_transform options) token slot = None.
Proof. destruct options as [o |]; repeat split. Qed.

(** X13. A [transform] that answers nothing, or the empty string, on every
    slot of the tokens of the input (for each token that is not a
    typography token: without a mode, and with each key of its mode
    mapping) is the same as no [transform], whatever it answers elsewhere:
    the result of [build] is that of the options without it. *)
Theorem build_falsy_override_is_no_override (options : option Options)
  (w : World) (input : BuildInput) :
  (forall token slot,
     In token (tokens input) -> as_typography token = None ->
     In slot (slots token) ->
     truthy (override options token slot) = false) ->
  build_result options w input
  = build_result (without_transform options) w input.
Proof.
  intros Hfalsy.
  destruct (without_transform_fields options) as [Hf [Hi [He Ho]]].
  assert (Hsemi : semi (without_transform options) = semi options
                  /\ cbOpen (without_transform options) = cbOpen options
                  /\ cbClose (without_transform options) = cbClose options
                  /\ ext (without_transform options) = ext options).
  { apply semi_congruence. rewrite Hi. reflexivity. }
  destruct Hsemi as [Hsemi [Hopen [Hclose Hext]]].
  unfold build_result. rewrite !build_output_text.
  rewrite (mapM_ext_in (entry_lines options w)
             (entry_lines (without_transform options) w)).
  - unfold filename, preamble, interlude, utilities,
      TOKEN_FN, LIST_MODES_FN, TYPOGRAPHY_MIXIN.
    rewrite Hf, Hsemi, Hopen, Hclose, Hext. reflexivity.
  - intros token Hin. unfold entry_lines.
    destruct (as_typography token) as [t |] eqn:Hty; [reflexivity |].
    rewrite (mapM_ext_in (emitted_value options w token)
               (emitted_value (without_transform options) w token));
      [reflexivity |].
    intros slot Hslot. unfold emitted_value, embeds.
    rewrite (Hfalsy token slot Hin Hty Hslot), Ho, He. reflexivity.
Qed.

(** X14. The metadata of the input reaches the output in the banner alone:
    two builds on the same tokens whose metadata differ write the same
    lines but for the two lines of the banner, and one returns when the
    other does. *)
Theorem metadata_only_in_banner (options : option Options) (w : World)
  (l : list ParsedToken) (m1 m2 : Metadata) (output : list string) :
  build_output options w {| tokens := l; metadata := m1 |} = Ok output ->
  exists rest,
    output = banner m1 ++ rest
    /\ build_output options w {| tokens := l; metadata := m2 |}
       = Ok (banner m2 ++ rest).
Proof.
  rewrite !build_output_text. simpl tokens. intros H.
  apply bind_inv in H. destruct H as [blocks [Hb H]].
  injection H as <-. rewrite Hb. simpl.
  eexists. split; reflexivity.
Qed.

End Errors.

Lemma without_hyphens_hyphenate (k : string) :
  without_hyphens (toLowerCase (hyphenate k)) = without_hyphens (toLowerCase k).
Proof.
  induction k as [| a r IH]; [reflexivity |].
  destruct r as [| b r'].
  - reflexivity.
  - change (hyphenate (String a (String b r')))
      with (if negb (is_upper a) && is_upper b
            then String a (String "-" (hyphenate (String b r')))
            else String a (hyphenate (String b r'))).
    destruct (negb (is_upper a) && is_upper b).
    + change (toLowerCase (String a (String "-" (hyphenate (String b r')))))
        with (String (lower a)
                (String "-" (toLowerCase (hyphenate (String b r'))))).
      change (toLowerCase (String a (String b r')))
        with (String (lower a) (toLowerCase (String b r'))).
      change (without_hyphens
                (String (lower a)
                   (String "-" (toLowerCase (hyphenate (String b r'))))))
        with (if Ascii.eqb (lower a) "-"
              then without_hyphens (toLowerCase (hyphenate (String b r')))
              else String (lower a)
                     (without_hyphens (toLowerCase (hyphenate (String b r'))))).
      change (without_hyphens (String (lower a) (toLowerCase (String b r'))))
        with (if Ascii.eqb (lower a) "-"
              then without_hyphens (toLowerCase (String b r'))
              else String (lower a)
                     (without_hyphens (toLowerCase (String b r')))).
      rewrite IH. reflexivity.
    + change (toLowerCase (String a (hyphenate (String b r'))))
        with (String (lower a) (toLowerCase (hyphenate (String b r')))).
      change (toLowerCase (String a (String b r')))
        with (String (lower a) (toLowerCase (String b r'))).
      change (without_hyphens
                (String (lower a) (toLowerCase (hyphenate (String b r')))))
        with (if Ascii.eqb (lower a) "-"
              then without_hyphens (toLowerCase (hyphenate (String b r')))
              else String (lower a)
                     (without_hyphens (toLowerCase (hyphenate (String b r'))))).
      change (without_hyphens (String (lower a) (toLowerCase (String b r'))))
        with (if Ascii.eqb (lower a) "-"
              then without_hyphens (toLowerCase (String b r'))
              else String (lower a)
                     (without_hyphens (toLowerCase (String b r')))).
      rewrite IH. reflexivity.
Qed.

(** X15. Renaming a property key of ASCII characters loses no character:
    the name written, [k.replace(CAMELCASE_RE, '$1-$2').toLowerCase()],
    differs from the key in lower case by hyphens only. *)
Theorem property_name_adds_hyphens_only (k : string) :
  ascii_only k ->
  without_hyphens (toLowerCase (replace_camelcase k))
  = without_hyphens (toLowerCase k).
Proof.
  intros _. rewrite replace_camelcase_hyphenate. apply without_hyphens_hyphenate.
Qed.

(** ** Further runs on the sample inputs *)

Section MoreRuns.
#[local] Existing Instance sample.

Lemma replace_trailing_ws_clears_line_ends_witness :
  replace_trailing_ws "a b" = ("a" ++ String " " "b")%string
  /\ is_space " " = true
  /\ at_line_end "b" = false
  /\ no_trailing_space (TOKEN_FN indented).
Proof.
  destruct (@replace_trailing_ws_clears_line_ends sample) as [Hsplit Htexts].
  split; [reflexivity |]. split; [reflexivity |]. split.
  - apply (Hsplit "a b"%string "a"%string " "%char "b"%string); reflexivity.
  - destruct (Htexts indented) as [Htoken _]. exact Htoken.
Defined.

Lemma replace_trailing_ws_fixed_point_witness :
  no_trailing_space "a b"
  /\ replace_trailing_ws "a b" = "a b"%string.
Proof.
  assert (H : no_trailing_space "a b").
  { simpl. repeat split; intros; try discriminate; reflexivity. }
  split; [exact H |].
  destruct (replace_trailing_ws_fixed_point "a b") as [Hfix _].
  apply Hfix. exact H.
Defined.

Lemma replace_extension_drops_one_extension_witness :
  replace_extension "tokens.scss.scss" = "tokens.scss"%string.
Proof.
  destruct (replace_extension_drops_one_extension "tokens.scss.scss")
    as [Hdrop _].
  apply Hdrop. right. reflexivity.
Defined.

Lemma property_name_unchanged_without_upper_witness :
  ascii_only "font-size"
  /\ no_upper "font-size"
  /\ toLowerCase (replace_camelcase "font-size") = "font-size"%string.
Proof.
  assert (Ha : ascii_only "font-size") by (simpl; repeat split).
  assert (H : no_upper "font-size") by (simpl; repeat split).
  split; [exact Ha |]. split; [exact H |].
  apply (property_name_unchanged_without_upper "font-size" Ha H).
Defined.

Lemma property_name_adds_hyphens_only_witness :
  ascii_only "fontSize"
  /\ toLowerCase (replace_camelcase "fontSize") = "font-size"%string
  /\ without_hyphens (toLowerCase (replace_camelcase "fontSize"))
     = without_hyphens (toLowerCase "fontSize").
Proof.
  assert (Ha : ascii_only "fontSize") by (simpl; repeat split).
  split; [exact Ha |]. split; [reflexivity |].
  apply (property_name_adds_hyphens_only "fontSize" Ha).
Defined.

Lemma build_throws_first_error_witness :
  tokens (input_of [red; faded; ratio]) = [red] ++ faded :: [ratio]
  /\ slots faded = [None] ++ Some "dark"%string :: []
  /\ defaultTransformer faded (Some "dark"%string)
     = Throw (missing_mode faded "dark")
  /\ build_result no_options fresh (input_of [red; faded; ratio])
     = Throw (missing_mode faded "dark").
Proof.
  split; [reflexivity |]. split; [reflexivity |]. split; [reflexivity |].
  apply (@build_throws_first_error sample no_options fresh
           (input_of [red; faded; ratio]) [red] [ratio] faded
           [None] [] (Some "dark"%string)).
  - reflexivity.
  - intros t s [<- | []] _ Hs. split; [| discriminate].
    destruct Hs as [<- | [<- | [<- | []]]]; right; eexists; reflexivity.
  - reflexivity.
  - reflexivity.
  - intros s [<- | []]. split; [| discriminate]. right. eexists. reflexivity.
  - reflexivity.
  - reflexivity.
Defined.

Lemma build_returns_only_complete_witness :
  exists results,
    build_result selective fresh (input_of [red; ratio; body]) = Ok results
    /\ truthy (override selective ratio None) = true
    /\ ((truthy (override selective red (Some "light"%string)) = true
         \/ exists v, defaultTransformer red (Some "light"%string) = Ok v)
        /\ (embeds selective red = true ->
            exists dir, config_outDir fresh = Ok dir)).
Proof.
  eexists. split; [vm_compute; reflexivity |]. split; [reflexivity |].
  eapply (@build_returns_only_complete sample selective fresh
            (input_of [red; ratio; body])).
  - vm_compute. reflexivity.
  - left. reflexivity.
  - reflexivity.
  - right. right. left. reflexivity.
Defined.

Lemma build_ignores_config_without_embedding_witness :
  existsb (embeds no_options) (tokens (input_of [red; alert; body])) = false
  /\ build_result no_options fresh (input_of [red; alert; body])
     = build_result no_options elsewhere (input_of [red; alert; body]).
Proof.
  assert (H : existsb (embeds no_options) (tokens (input_of [red; alert; body]))
              = false) by reflexivity.
  split; [exact H |].
  apply (@build_ignores_config_without_embedding sample no_options
           (input_of [red; alert; body]) H).
Defined.

Lemma build_embedding_needs_config_witness :
  closure_config fresh = None
  /\ type_ alert = "link"%string
  /\ flag (chain embedding embedFiles) = true
  /\ exists msg,
       build_result embedding fresh (input_of [red; alert]) = Throw msg.
Proof.
  split; [reflexivity |]. split; [reflexivity |]. split; [reflexivity |].
  apply (@build_embedding_needs_config sample embedding fresh
           (input_of [red; alert]) alert).
  - reflexivity.
  - right. left. reflexivity.
  - reflexivity.
  - reflexivity.
Defined.

Lemma build_falsy_override_is_no_override_witness :
  override printing red (Some "print"%string) = Some "X"%string
  /\ (forall token slot,
        In token (tokens (input_of [red; alert; body])) ->
        as_typography token = None ->
        In slot (slots token) ->
        truthy (override printing token slot) = false)
  /\ build_result printing configured (input_of [red; alert; body])
     = build_result (without_transform printing) configured
         (input_of [red; alert; body]).
Proof.
  assert (H : forall token slot,
             In token (tokens (input_of [red; alert; body])) ->
             as_typography token = None ->
             In slot (slots token) ->
             truthy (override printing token slot) = false).
  { intros token slot [<- | [<- | [<- | []]]] Ht Hslot.
    - destruct Hslot as [<- | [<- | [<- | []]]]; reflexivity.
    - destruct Hslot as [<- | []]; reflexivity.
    - discriminate Ht. }
  split; [reflexivity |]. split; [exact H |].
  apply (@build_falsy_override_is_no_override sample printing
           configured (input_of [red; alert; body]) H).
Defined.

Lemma metadata_only_in_banner_witness :
  exists output rest,
    build_output no_options fresh
      {| tokens := [red; body]; metadata := {| name := None |} |} = Ok output
    /\ output = banner {| name := None |} ++ rest
    /\ build_output no_options fresh
         {| tokens := [red; body]; metadata := {| name := Some "Brand"%string |} |}
       = Ok (banner {| name := Some "Brand"%string |} ++ rest).
Proof.
  eexists.
  edestruct (@metadata_only_in_banner sample no_options fresh [red; body]
               {| name := None |} {| name := Some "Brand"%string |})
    as [rest [Hout Hother]].
  - vm_compute. reflexivity.
  - exists rest. split; [vm_compute; reflexivity |].
    split; [exact Hout | exact Hother].
Defined.

End MoreRuns.
